(** * Qcover, cirq backend: expectation of a QAOA cost Hamiltonian by graph
    decomposition ([src/backends/circuitbycirq.py], class [CircuitByCirq]).

    The class is embedded function by function.  Python floats are read as
    real numbers ([R]): additions, products and amplitudes are those of exact
    arithmetic, which the floating-point results of the program (complex64
    amplitudes, float sums) follow up to rounding; a statement that gives a
    number gives it in that reading.  Node identifiers are Python ints ([Z]); qubits of
    [cirq.LineQubit.range(n)] are their positions ([nat]); dictionaries are
    [gmap]s, except [_element_to_graph], whose [items()] are iterated in
    insertion order and which is kept as an association list.  Exceptions are
    values of an error monad.  The calls into the cirq library (gates,
    state-vector simulation, Pauli-string expectation) are given their
    documented mathematical meaning in [Module cirq]. *)

From Stdlib Require Import Reals Lra Lia ZArith Psatz.
From stdpp Require Import gmap strings list.

(** ** Exceptions *)

Inductive exn := KeyError | IndexError | TypeError | AttributeError | ValueError.

Inductive result (A : Type) : Type :=
| Ok (a : A)
| Raise (e : exn).
Arguments Ok {A} a.
Arguments Raise {A} e.

#[global] Instance result_ret : MRet result := λ A a, Ok a.
#[global] Instance result_bind : MBind result := λ A B f m,
  match m with Ok a => f a | Raise e => Raise e end.
#[global] Instance result_fmap : FMap result := λ A B f m,
  match m with Ok a => Ok (f a) | Raise e => Raise e end.

Definition is_Ok {A} (m : result A) : Prop := ∃ a, m = Ok a.
Definition is_Raise {A} (m : result A) : Prop := ∃ e, m = Raise e.

(** [d[k]] on a dictionary attribute that [__init__] leaves [None] until the
    caller supplies it: subscripting [None] is a [TypeError], a missing key a
    [KeyError]. *)
Definition subscript `{Countable K} {V} (d : option (gmap K V)) (k : K) : result V :=
  match d with
  | None => Raise TypeError
  | Some m => match m !! k with Some v => Ok v | None => Raise KeyError end
  end.

(** [l[i]] on a list, for [i >= 0]. *)
Definition index {A} (l : list A) (i : nat) : result A :=
  match l !! i with Some x => Ok x | None => Raise IndexError end.

(** An attribute that is still [None] where a number or sequence is needed
    ([None[:p]], [range(None)]). *)
Definition attr {A} (a : option A) : result A :=
  match a with Some x => Ok x | None => Raise TypeError end.

(** ** Complex numbers *)

Definition C : Type := R * R.

Definition RtoC (x : R) : C := (x, 0%R).
Definition real (z : C) : R := z.1.
Definition Cplus (a b : C) : C := (a.1 + b.1, a.2 + b.2)%R.
Definition Copp (a : C) : C := (- a.1, - a.2)%R.
Definition Cmult (a b : C) : C := (a.1 * b.1 - a.2 * b.2, a.1 * b.2 + a.2 * b.1)%R.
Definition Cconj (a : C) : C := (a.1, - a.2)%R.
Definition Csum (l : list C) : C := foldr Cplus (RtoC 0) l.

(** ** numpy arrays: multiplication by a scalar, on either side *)

Definition np_lmul (c : R) (a : list R) : list R := (λ x, c * x)%R <$> a.
Definition np_rmul (a : list R) (c : R) : list R := (λ x, x * c)%R <$> a.

(** ** The part of cirq the class calls *)

Module cirq.

(** [cirq.LineQubit.range(n)]: the qubit at position [i] is [i]. *)
Definition LineQubit_range (n : nat) : list nat := seq 0 n.

(** What a caller passes to [cirq.rz] / [cirq.rx] as the angle: a Python
    float or a numpy array. *)
Inductive angle :=
| scalar (θ : R)
| ndarray (a : list R).

(** Gate operations. *)
Inductive operation :=
| H (q : nat)
| rz (rads : angle) (q : nat)
| CX (control target : nat)
| rx (rads : angle) (q : nat).

(** What [circ.append] receives: an operation, or a [cirq.Moment] holding
    one operation. *)
Inductive entry :=
| Op (o : operation)
| Moment (o : operation).

Abbreviation Circuit := (list entry).

(** A Pauli string of [Z] factors with coefficient one, as the list of the
    qubits that carry a [Z]. *)
Abbreviation PauliString := (list nat).

Definition Z (q : nat) : PauliString := [q].

(** [a * b]: [Z] squares to the identity, so a qubit in both drops out. *)
Definition mul (a b : PauliString) : PauliString :=
  filter (λ q, q ∉ b) a ++ filter (λ q, q ∉ a) b.

(** Computational basis states, one bit per qubit, qubit 0 first (cirq is
    big-endian), in the order of the entries of a state vector. *)
Abbreviation basis := (list bool).

Fixpoint bitstrings (n : nat) : list basis :=
  match n with
  | 0 => [[]]
  | S n' => (cons false <$> bitstrings n') ++ (cons true <$> bitstrings n')
  end.

Definition bit (x : basis) (q : nat) : bool := default false (x !! q).

(** A state as the amplitude of each basis state. *)
Definition ket := basis → C.

Definition ket0 : ket := λ x, if forallb negb x then RtoC 1 else RtoC 0.

(** One-qubit unitaries as [row → column → entry]. *)
Definition mat2 := bool → bool → C.

Definition H_mat : mat2 := λ r c,
  if r && c then RtoC (- / sqrt 2) else RtoC (/ sqrt 2).

(** [rz(θ) = exp(-i Z θ/2)] *)
Definition rz_mat (θ : R) : mat2 := λ r c,
  match r, c with
  | false, false => (cos (θ / 2), - sin (θ / 2))%R
  | true, true => (cos (θ / 2), sin (θ / 2))%R
  | _, _ => RtoC 0
  end.

(** [rx(θ) = exp(-i X θ/2)] *)
Definition rx_mat (θ : R) : mat2 := λ r c,
  if eqb r c then RtoC (cos (θ / 2)) else (0, - sin (θ / 2))%R.

Definition apply_1q (U : mat2) (q : nat) (ψ : ket) : ket := λ x,
  Cplus (Cmult (U (bit x q) false) (ψ (<[q:=false]> x)))
        (Cmult (U (bit x q) true) (ψ (<[q:=true]> x))).

Definition apply_CX (c t : nat) (ψ : ket) : ket := λ x,
  ψ (if bit x c then <[t:=negb (bit x t)]> x else x).

(** The observable [Z] on qubit [q], as an operator on states. *)
Definition apply_Z (q : nat) (ψ : ket) : ket := λ x,
  if bit x q then Copp (ψ x) else ψ x.

(** [⟨φ|ψ⟩] on [n] qubits. *)
Definition inner (n : nat) (φ ψ : ket) : C :=
  Csum ((λ x, Cmult (Cconj (φ x)) (ψ x)) <$> bitstrings n).

Section simulator.
(** How the simulator reads a rotation angle that is a numpy array: the
    angle it ends up using, or the exception it raises.  cirq does not
    document this case, so it is left open. *)
Variable array_rads : list R → result R.

Definition read_angle (rads : angle) : result R :=
  match rads with
  | scalar θ => Ok θ
  | ndarray a => array_rads a
  end.

Definition apply_operation (o : operation) (ψ : ket) : result ket :=
  match o with
  | H q => Ok (apply_1q H_mat q ψ)
  | rz rads q => θ ← read_angle rads; Ok (apply_1q (rz_mat θ) q ψ)
  | CX c t => Ok (apply_CX c t ψ)
  | rx rads q => θ ← read_angle rads; Ok (apply_1q (rx_mat θ) q ψ)
  end.

Definition entry_operation (e : entry) : operation :=
  match e with Op o => o | Moment o => o end.

(** Operations act in the order they were appended: cirq moves an
    operation to an earlier moment only past operations on other
    qubits, with which it commutes. *)
Fixpoint evolve (circ : Circuit) (ψ : ket) : result ket :=
  match circ with
  | [] => Ok ψ
  | e :: circ' => ψ' ← apply_operation (entry_operation e) ψ; evolve circ' ψ'
  end.

(** [cirq.final_state_vector(circ)] from [|0…0⟩].  The circuits built
    below put a Hadamard on each of [LineQubit.range(n)] and touch no
    other qubit, so the simulated register is those [n] qubits in their
    order; [n] is passed along. *)
Definition final_state (circ : Circuit) : result ket := evolve circ ket0.

Definition final_state_vector (n : nat) (circ : Circuit) : result (list C) :=
  ψ ← final_state circ; Ok (ψ <$> bitstrings n).
End simulator.

(** [op.expectation_from_state_vector(state, qubit_map)]: every qubit of
    [op] must be in [qubit_map]; its [Z] is applied along the axis the map
    gives, and the result is [⟨state|op|state⟩].  (cirq also checks that
    [state] has norm one, which a state produced by unitary gates has.) *)
Definition Z_along (num_qubits axis : nat) (v : list C) : list C :=
  zip_with (λ x a, if bit x axis then Copp a else a) (bitstrings num_qubits) v.

Definition expectation_from_state_vector
    (op : PauliString) (state : list C) (qubit_map : gmap nat nat) : result C :=
  axes ← mapM (λ q, match qubit_map !! q with
                    | Some a => Ok a
                    | None => Raise ValueError
                    end) op;
  let num_qubits := Nat.log2 (length state) in
  let v := foldr (Z_along num_qubits) state axes in
  Ok (Csum (zip_with (λ s k, Cmult (Cconj s) k) state v)).

End cirq.

(** ** Data model *)

(** A graph element: a node identifier ([isinstance(element, int)]) or an
    edge, a pair of node identifiers. *)
Inductive element :=
| Node (n : Z)
| Edge (a b : Z).

(** What the class reads of a [networkx] graph: [graph.nodes] and
    [graph.edges], in iteration order. *)
Record Graph := {
  nodes : list Z;
  edges : list (Z * Z)
}.

(** The attributes of a [CircuitByCirq] object.  [__init__] leaves [_p],
    [_element_to_graph] and [_pargs] at [None]; the caller attaches them.
    [_pargs] is a numpy array (the docstring of [get_expectation]:
    "params (np.array)"). *)
Record CircuitByCirq := {
  _p : option nat;
  _nodes_weight : option (gmap Z R);
  _edges_weight : option (gmap (Z * Z) R);
  _is_parallel : bool;
  _element_to_graph : option (list (element * Graph));
  _pargs : option (list R);
  _expectation_path : list R
}.

Definition __init__
    (nodes_weight : option (gmap Z R)) (edges_weight : option (gmap (Z * Z) R))
    (is_parallel : option bool) : CircuitByCirq :=
  {| _p := None;
     _nodes_weight := nodes_weight;
     _edges_weight := edges_weight;
     _is_parallel := match is_parallel with None => false | Some b => b end;
     _element_to_graph := None;
     _pargs := None;
     _expectation_path := [] |}.

(** [self._expectation_path.append(res)] *)
Definition append_expectation_path (self : CircuitByCirq) (res : R) : CircuitByCirq :=
  {| _p := _p self;
     _nodes_weight := _nodes_weight self;
     _edges_weight := _edges_weight self;
     _is_parallel := _is_parallel self;
     _element_to_graph := _element_to_graph self;
     _pargs := _pargs self;
     _expectation_path := _expectation_path self ++ [res] |}.

(** The same object with another history; used to state that a result does
    not depend on the history. *)
Definition with_expectation_path (self : CircuitByCirq) (path : list R) : CircuitByCirq :=
  {| _p := _p self;
     _nodes_weight := _nodes_weight self;
     _edges_weight := _edges_weight self;
     _is_parallel := _is_parallel self;
     _element_to_graph := _element_to_graph self;
     _pargs := _pargs self;
     _expectation_path := path |}.

(** ** [get_operator] *)

Definition element_nodes (e : element) : list Z :=
  match e with Node n => [n] | Edge a b => [a; b] end.

(** The product of [Z] on each position of [range(qubit_num)] that is among
    the nodes of the element; the integer [1] the product starts from is the
    empty Pauli string.  No other method calls it. *)
Definition get_operator (self : CircuitByCirq) (e : element) (qubit_num : nat)
    : cirq.PauliString :=
  let qubits := cirq.LineQubit_range qubit_num in
  foldl (λ op i, if decide (Z.of_nat i ∈ element_nodes e)
                 then cirq.mul op (cirq.Z i) else op) [] qubits.

(** ** [get_expectation] *)

(** Lines 58-61: [node_to_qubit[node_list[i]] = i] for [i] in
    [range(len(node_list))]. *)
Definition node_to_qubit (node_list : list Z) : gmap Z nat :=
  foldl (λ m i, match node_list !! i with
                | Some nd => <[nd:=i]> m
                | None => m
                end) ∅ (seq 0 (length node_list)).

(** Reading a [defaultdict(int)]: a missing key reads as [0].  (Python also
    stores the key with value [0], which changes no later read.) *)
Definition defaultdict_get (d : gmap Z nat) (k : Z) : nat := default 0 (d !! k).

Section layers.
Variable self : CircuitByCirq.
Variable graph : Graph.
Variables gamma_list beta_list : list R.

Let node_list := nodes graph.
Let ntq := node_to_qubit node_list.
Let ql := cirq.LineQubit_range (length node_list).

(** Lines 69-71. *)
Definition cost_phase : result cirq.Circuit :=
  mapM (λ i,
    let u := defaultdict_get ntq i in
    w ← subscript (_nodes_weight self) i;
    q ← index ql u;
    Ok (cirq.Op (cirq.rz (cirq.ndarray (np_rmul (np_lmul 2 gamma_list) w)) q))) (nodes graph).

(** Lines 74-80, for one edge. *)
Definition coupling_edge (edge : Z * Z) : result cirq.Circuit :=
  let u := defaultdict_get ntq edge.1 in
  let v := defaultdict_get ntq edge.2 in
  if decide (u = v) then Ok []
  else
    qu ← index ql u;
    qv ← index ql v;
    w ← subscript (_edges_weight self) (edge.1, edge.2);
    Ok [cirq.Op (cirq.CX qu qv);
        cirq.Op (cirq.rz (cirq.ndarray (np_rmul (np_lmul 2 gamma_list) w)) qv);
        cirq.Op (cirq.CX qu qv)].

(** Lines 73-80. *)
Definition coupling : result cirq.Circuit :=
  gates ← mapM coupling_edge (edges graph); Ok (concat gates).

(** Lines 82-84. *)
Definition mixer : result cirq.Circuit :=
  mapM (λ nd,
    let u := defaultdict_get ntq nd in
    q ← index ql u;
    Ok (cirq.Moment (cirq.rx (cirq.ndarray (np_lmul 2 beta_list)) q))) (nodes graph).

(** The body of [for k in range(self._p)].  The source binds [k] and does
    not use it. *)
Definition layer (k : nat) : result cirq.Circuit :=
  a ← cost_phase;
  b ← coupling;
  c ← mixer;
  Ok (a ++ b ++ c).
End layers.

(** Lines 58-84: the circuit of one subgraph. *)
Definition build_circuit (self : CircuitByCirq) (graph : Graph) : result cirq.Circuit :=
  let node_list := nodes graph in
  let ql := cirq.LineQubit_range (length node_list) in
  (* cirq.H(ql[i]) for i in range(len(node_list)) *)
  let hadamards := (λ i, cirq.Op (cirq.H i)) <$> ql in
  pargs ← attr (_pargs self);
  p ← attr (_p self);
  let gamma_list := take p pargs in
  let beta_list := drop p pargs in
  ls ← mapM (layer self graph gamma_list beta_list) (seq 0 p);
  Ok (hadamards ++ concat ls).

(** Lines 86-94: the weight and the observable of the element. *)
Definition observable (self : CircuitByCirq) (original_e : element) (graph : Graph)
    : result (R * cirq.PauliString) :=
  let node_list := nodes graph in
  let ntq := node_to_qubit node_list in
  let qubits := cirq.LineQubit_range (length node_list) in
  match original_e with
  | Node n =>
      weight ← subscript (_nodes_weight self) n;
      q ← index qubits (defaultdict_get ntq n);
      Ok (weight, cirq.Z q)
  | Edge a b =>
      weight ← subscript (_edges_weight self) (a, b);
      qa ← index qubits (defaultdict_get ntq a);
      qb ← index qubits (defaultdict_get ntq b);
      Ok (weight, cirq.mul (cirq.Z qa) (cirq.Z qb))
  end.

(** Line 87: [dict(zip(qubits, range(len(node_list))))]. *)
Definition qubit_map (n : nat) : gmap nat nat :=
  list_to_map (zip (cirq.LineQubit_range n) (seq 0 n)).

(** The object together with the process environment the strategies write
    to.  The thread-count variables hold [str(cpu_num)]; the number is kept.
    [print] is left out. *)
Record world := {
  obj : CircuitByCirq;
  os_environ : gmap string nat
}.

Definition set_thread_counts (cpu_num : nat) (environ : gmap string nat) : gmap string nat :=
  <["NUMEXPR_NUM_THREADS":=cpu_num]>
    (<["VECLIB_MAXIMUM_THREADS":=cpu_num]>
      (<["MKL_NUM_THREADS":=cpu_num]>
        (<["OPENBLAS_NUM_THREADS":=cpu_num]>
          (<["OMP_NUM_THREADS":=cpu_num]> environ)))).

(** [self._element_to_graph.items()]; on [None] an [AttributeError]. *)
Definition items (d : option (list (element * Graph))) : result (list (element * Graph)) :=
  match d with Some l => Ok l | None => Raise AttributeError end.

Section engine.
(** See [cirq.simulator]. *)
Variable array_rads : list R → result R.

Definition get_expectation (self : CircuitByCirq) (element_graph : element * Graph) : result R :=
  let '(original_e, graph) := element_graph in
  let n := length (nodes graph) in
  circ ← build_circuit self graph;
  '(weight, op) ← observable self original_e graph;
  state ← cirq.final_state_vector array_rads n circ;
  exp_res ← cirq.expectation_from_state_vector op state (qubit_map n);
  Ok (weight * real exp_res)%R.

(** ** The two strategies *)

(** [multiprocessing.cpu_count()], [os.cpu_count()] *)
Variable cpu_count : nat.

(** Lines 118-120: [res = 0], then [res += self.get_expectation(item)] for
    each item. *)
Fixpoint serial_loop (self : CircuitByCirq) (its : list (element * Graph)) (res : R)
    : result R :=
  match its with
  | [] => Ok res
  | item :: its' =>
      x ← get_expectation self item;
      serial_loop self its' (res + x)%R
  end.

Definition expectation_calculation_serial (w : world) : result R * world :=
  let cpu_num := cpu_count in
  let environ := set_thread_counts cpu_num (os_environ w) in
  match its ← items (_element_to_graph (obj w)); serial_loop (obj w) its 0%R with
  | Ok res =>
      (Ok res, {| obj := append_expectation_path (obj w) res; os_environ := environ |})
  | Raise e => (Raise e, {| obj := obj w; os_environ := environ |})
  end.

(** [pool.map(f, l, chunksize=1)]: the results in the order of [l]; if a
    task raises, the call raises.  With several failing tasks Python
    re-raises whichever failed first in time; the model reports the first in
    the order of [l], and no statement below depends on which one it is. *)
Definition pool_map {A B} (f : A → result B) (l : list A) : result (list B) := mapM f l.

(** Python's [sum]: from [0], left to right (the additions are those of
    real numbers, see the head of the file). *)
Definition sum (l : list R) : R := foldl Rplus 0%R l.

Definition expectation_calculation_parallel (w : world) : result R * world :=
  let cpu_num := 1 in
  let environ := set_thread_counts cpu_num (os_environ w) in
  match its ← items (_element_to_graph (obj w));
        circ_res ← pool_map (get_expectation (obj w)) its;
        Ok (sum circ_res) with
  | Ok res =>
      (Ok res, {| obj := append_expectation_path (obj w) res; os_environ := environ |})
  | Raise e => (Raise e, {| obj := obj w; os_environ := environ |})
  end.

Definition expectation_calculation (w : world) : result R * world :=
  if _is_parallel (obj w) then expectation_calculation_parallel w
  else expectation_calculation_serial w.

(** [visualization] hands [range(1, len(path) + 1)] and the history to the
    plotting library and changes nothing. *)
Definition visualization (w : world) : list (nat * R) * world :=
  (zip (seq 1 (length (_expectation_path (obj w)))) (_expectation_path (obj w)), w).

End engine.

(** ** Definitions used in the statements *)

(** The total of a call, if it returned one. *)
Definition total (r : result R) : option R :=
  match r with Ok x => Some x | Raise _ => None end.

(** The per-term contributions of all items, summed. *)
Definition sum_of_terms (array_rads : list R → result R) (self : CircuitByCirq) : result R :=
  its ← items (_element_to_graph self);
  rs ← mapM (get_expectation array_rads self) its;
  Ok (sum rs).

(** What a call leaves of the object: the history grown by the total if one
    was returned, the object as it was otherwise. *)
Definition after (self : CircuitByCirq) (r : result R) : CircuitByCirq :=
  match r with
  | Ok res => append_expectation_path self res
  | Raise _ => self
  end.

(** The world with another history in its object. *)
Definition with_path (w : world) (path : list R) : world :=
  {| obj := with_expectation_path (obj w) path; os_environ := os_environ w |}.

(** After the call [f] the history is the old one followed by the returned
    total, or the old one if the call raised. *)
Definition appends_total (f : world → result R * world) (w : world) : Prop :=
  _expectation_path (obj (f w).2) =
  _expectation_path (obj w) ++ match (f w).1 with Ok res => [res] | Raise _ => [] end.

(** The outcome of [f] is the same whatever the history holds. *)
Definition ignores_history (f : world → result R * world) (w : world) : Prop :=
  ∀ path, (f (with_path w path)).1 = (f w).1.

(** The call [f] leaves every attribute but the history as it was. *)
Definition keeps_inputs (f : world → result R * world) (w : world) : Prop :=
  let self := obj w in
  let self' := obj (f w).2 in
  _p self' = _p self ∧
  _nodes_weight self' = _nodes_weight self ∧
  _edges_weight self' = _edges_weight self ∧
  _is_parallel self' = _is_parallel self ∧
  _element_to_graph self' = _element_to_graph self ∧
  _pargs self' = _pargs self.

(** Calling [f] twice in a row: both calls have the same outcome, and the
    history grows by the total twice (by nothing if the calls raise). *)
Definition repeatable (f : world → result R * world) (w : world) : Prop :=
  let w1 := (f w).2 in
  let w2 := (f w1).2 in
  total (f w1).1 = total (f w).1 ∧
  _expectation_path (obj w2) =
  _expectation_path (obj w) ++
    match (f w).1 with Ok res => [res; res] | Raise _ => [] end.

(** [weight(element)]: the entry of the element in its weight mapping. *)
Definition element_weight (self : CircuitByCirq) (e : element) : result R :=
  match e with
  | Node n => subscript (_nodes_weight self) n
  | Edge a b => subscript (_edges_weight self) (a, b)
  end.

(** The observable of an element as an operator on the states of its
    subgraph: [Z] on the local qubit of a node, the product of the [Z]s on
    the local qubits of the two endpoints of an edge. *)
Definition element_operator (e : element) (g : Graph) (ψ : cirq.ket) : cirq.ket :=
  let ntq := node_to_qubit (nodes g) in
  match e with
  | Node n => cirq.apply_Z (defaultdict_get ntq n) ψ
  | Edge a b =>
      cirq.apply_Z (defaultdict_get ntq a) (cirq.apply_Z (defaultdict_get ntq b) ψ)
  end.

(** The circuit that only puts a Hadamard on each of [n] qubits. *)
Definition hadamards (n : nat) : cirq.Circuit :=
  (λ i, cirq.Op (cirq.H i)) <$> cirq.LineQubit_range n.



(** A simulator that takes a one-element array for its element (numpy
    broadcasting) and raises [TypeError] on an array of several angles; used
    for closed examples, which simulate circuits of depth 0 and 1 only,
    where every angle is a one-element array.  (What a simulator does with
    an empty array is not needed there; this one raises as well.) *)
Definition broadcast_rads (a : list R) : result R :=
  match a with [x] => Ok x | _ => Raise TypeError end.

(** Layer [k] as the specification words it (4.1, step 3), for comparison
    with [layer]: the cost-phase rotations take the angle
    [2 * gamma[k] * weight], the mixer rotations [2 * beta[k]], both
    scalars. *)
Definition specified_layer (self : CircuitByCirq) (graph : Graph)
    (gamma beta : list R) (k : nat) : result cirq.Circuit :=
  let ntq := node_to_qubit (nodes graph) in
  gamma_k ← index gamma k;
  beta_k ← index beta k;
  a ← mapM (λ i,
         w ← subscript (_nodes_weight self) i;
         Ok (cirq.Op (cirq.rz (cirq.scalar (2 * gamma_k * w)) (defaultdict_get ntq i))))
       (nodes graph);
  b ← mapM (λ edge : Z * Z,
         let u := defaultdict_get ntq edge.1 in
         let v := defaultdict_get ntq edge.2 in
         if decide (u = v) then Ok []
         else
           w ← subscript (_edges_weight self) (edge.1, edge.2);
           Ok [cirq.Op (cirq.CX u v);
               cirq.Op (cirq.rz (cirq.scalar (2 * gamma_k * w)) v);
               cirq.Op (cirq.CX u v)])
       (edges graph);
  Ok (a ++ concat b ++
      ((λ nd, cirq.Moment (cirq.rx (cirq.scalar (2 * beta_k)) (defaultdict_get ntq nd)))
         <$> nodes graph)).

(** Every attribute the caller has to supply is there. *)
Definition attached (self : CircuitByCirq) : Prop :=
  is_Some (_p self) ∧ is_Some (_pargs self) ∧
  is_Some (_nodes_weight self) ∧ is_Some (_edges_weight self).

(** The weight mapping the element is looked up in has no entry for it. *)
Definition weight_absent (self : CircuitByCirq) (e : element) : Prop :=
  match e with
  | Node n => ∃ nw, _nodes_weight self = Some nw ∧ nw !! n = None
  | Edge a b => ∃ ew, _edges_weight self = Some ew ∧ ew !! (a, b) = None
  end.

(** ** Examples of inputs *)

Definition no_environ : gmap string nat := ∅.

(** One node, no edge. *)
Definition graph_1 : Graph := {| nodes := [0%Z]; edges := [] |}.

(** Two nodes joined by an edge. *)
Definition graph_2 : Graph := {| nodes := [0%Z; 1%Z]; edges := [(0%Z, 1%Z)] |}.

(** The same with a self-loop on node 1. *)
Definition graph_2_loop : Graph :=
  {| nodes := [0%Z; 1%Z]; edges := [(0%Z, 1%Z); (1%Z, 1%Z)] |}.

Definition graph_empty : Graph := {| nodes := []; edges := [] |}.

Definition unit_nodes_weight : gmap Z R := <[0%Z:=1%R]> (<[1%Z:=1%R]> ∅).
Definition unit_edges_weight : gmap (Z * Z) R := <[(0%Z, 1%Z):=1%R]> ∅.

Definition engine_with (p : nat) (pargs : list R) (is_parallel : bool)
    (mapping : list (element * Graph)) : CircuitByCirq :=
  {| _p := Some p;
     _nodes_weight := Some unit_nodes_weight;
     _edges_weight := Some unit_edges_weight;
     _is_parallel := is_parallel;
     _element_to_graph := Some mapping;
     _pargs := Some pargs;
     _expectation_path := [] |}.

(** Depth 2 on the one-node graph. *)
Definition engine_depth_2 : CircuitByCirq :=
  engine_with 2 [1%R; 2%R; 3%R; 4%R] false [(Node 0, graph_1)].


(** The state [|++⟩]: a Hadamard on each of two qubits. *)
Definition plus_plus : cirq.ket :=
  cirq.apply_1q cirq.H_mat 1 (cirq.apply_1q cirq.H_mat 0 cirq.ket0).

(** A node term whose node, 5, is not in its (empty) subgraph. *)
Definition engine_absent_node : CircuitByCirq :=
  {| _p := Some 0;
     _nodes_weight := Some (<[5%Z:=1%R]> ∅);
     _edges_weight := Some ∅;
     _is_parallel := false;
     _element_to_graph := Some [(Node 5, graph_empty)];
     _pargs := Some [];
     _expectation_path := [] |}.

(** Depth 1 on the two-node graph; the second term is a node without a
    weight. *)
Definition engine_missing_weight : CircuitByCirq :=
  engine_with 1 [1%R; 2%R] false [(Node 0, graph_2); (Node 7, graph_2)].

(** Depth 1 on the two-node graph with the self-loop, which has no weight. *)
Definition engine_depth_1 : CircuitByCirq :=
  engine_with 1 [1%R; 2%R] false
    [(Node 0, graph_2_loop); (Node 1, graph_2_loop); (Edge 0 1, graph_2_loop)].

(** The circuit of [engine_depth_1] on the two-node graph, and the state it
    produces when one-element arrays are read as their element. *)
Definition circuit_depth_1 : cirq.Circuit :=
  [cirq.Op (cirq.H 0); cirq.Op (cirq.H 1);
   cirq.Op (cirq.rz (cirq.ndarray [(2 * 1 * 1)%R]) 0);
   cirq.Op (cirq.rz (cirq.ndarray [(2 * 1 * 1)%R]) 1);
   cirq.Op (cirq.CX 0 1);
   cirq.Op (cirq.rz (cirq.ndarray [(2 * 1 * 1)%R]) 1);
   cirq.Op (cirq.CX 0 1);
   cirq.Moment (cirq.rx (cirq.ndarray [(2 * 2)%R]) 0);
   cirq.Moment (cirq.rx (cirq.ndarray [(2 * 2)%R]) 1)].

Definition state_depth_1 : cirq.ket :=
  cirq.apply_1q (cirq.rx_mat (2 * 2)) 1
    (cirq.apply_1q (cirq.rx_mat (2 * 2)) 0
      (cirq.apply_CX 0 1
        (cirq.apply_1q (cirq.rz_mat (2 * 1 * 1)) 1
          (cirq.apply_CX 0 1
            (cirq.apply_1q (cirq.rz_mat (2 * 1 * 1)) 1
              (cirq.apply_1q (cirq.rz_mat (2 * 1 * 1)) 0 plus_plus)))))).

Definition world_of (self : CircuitByCirq) : world :=
  {| obj := self; os_environ := no_environ |}.

(** ** Further definitions used in statements *)

(** An operation that stays within a register of [n] qubits; a [CX] has two
    different qubits. *)
Definition operation_within (n : nat) (o : cirq.operation) : Prop :=
  match o with
  | cirq.H q => q < n
  | cirq.rz _ q => q < n
  | cirq.rx _ q => q < n
  | cirq.CX c t => c < n ∧ t < n ∧ c ≠ t
  end.

(** The environment variables both strategies write. *)
Definition thread_count_variables : list string :=
  ["OMP_NUM_THREADS"; "OPENBLAS_NUM_THREADS"; "MKL_NUM_THREADS";
   "VECLIB_MAXIMUM_THREADS"; "NUMEXPR_NUM_THREADS"].

(** The object with another element-to-subgraph mapping attached. *)
Definition with_element_to_graph (self : CircuitByCirq) (its : list (element * Graph))
    : CircuitByCirq :=
  {| _p := _p self;
     _nodes_weight := _nodes_weight self;
     _edges_weight := _edges_weight self;
     _is_parallel := _is_parallel self;
     _element_to_graph := Some its;
     _pargs := _pargs self;
     _expectation_path := _expectation_path self |}.

Definition with_mapping (w : world) (its : list (element * Graph)) : world :=
  {| obj := with_element_to_graph (obj w) its; os_environ := os_environ w |}.

(** The world after [k] calls of [f] in a row. *)
Fixpoint repeat_calls (f : world → result R * world) (k : nat) (w : world) : world :=
  match k with
  | 0 => w
  | S k' => repeat_calls f k' (f w).2
  end.

(** The total of two computations, if both return one. *)
Definition add_totals (r1 r2 : result R) : option R :=
  match r1, r2 with
  | Ok a, Ok b => Some (a + b)%R
  | _, _ => None
  end.

(** A three-node path graph, and an object built by [__init__] to which
    nothing has been attached. *)
Definition graph_3 : Graph :=
  {| nodes := [4%Z; 2%Z; 9%Z]; edges := [(4%Z, 2%Z); (2%Z, 9%Z)] |}.

(** The two-node graph listing its edge from node 1 to node 0; the edge
    weights have the pair [(0, 1)] only. *)
Definition graph_2_reversed : Graph :=
  {| nodes := [0%Z; 1%Z]; edges := [(1%Z, 0%Z)] |}.

(** Depth 1 with a weight 3 for the self-loop [(1, 1)], which is the element
    of the only term. *)
Definition engine_loop_element : CircuitByCirq :=
  {| _p := Some 1;
     _nodes_weight := Some unit_nodes_weight;
     _edges_weight := Some (<[(1%Z, 1%Z):=3%R]> unit_edges_weight);
     _is_parallel := false;
     _element_to_graph := Some [(Edge 1 1, graph_2)];
     _pargs := Some [1%R; 2%R];
     _expectation_path := [] |}.


(** Weights for elements that name node 5, which is in none of the graphs
    above. *)
Definition engine_node_5 : CircuitByCirq :=
  {| _p := Some 1;
     _nodes_weight := Some (<[5%Z:=2%R]> unit_nodes_weight);
     _edges_weight :=
       Some (<[(5%Z, 1%Z):=4%R]> (<[(5%Z, 0%Z):=6%R]> unit_edges_weight));
     _is_parallel := false;
     _element_to_graph :=
       Some [(Node 5, graph_2); (Edge 5 1, graph_2); (Edge 5 0, graph_2)];
     _pargs := Some [1%R; 2%R];
     _expectation_path := [] |}.

Definition engine_fresh : CircuitByCirq :=
  __init__ (Some unit_nodes_weight) (Some unit_edges_weight) None.

(** ** Lemmas on the error monad *)

Lemma mapM_result_app {A B} (f : A → result B) (l1 l2 : list A) :
  mapM f (l1 ++ l2) = (a ← mapM f l1; b ← mapM f l2; Ok (a ++ b)).
Proof.
  induction l1 as [|x l1 IH]; simpl.
  - destruct (mapM f l2); reflexivity.
  - destruct (f x) as [y|e]; simpl; [|reflexivity].
    rewrite IH. destruct (mapM f l1); simpl; [|reflexivity].
    destruct (mapM f l2); reflexivity.
Qed.

Lemma mapM_result_ext {A B} (f g : A → result B) (l : list A) :
  (∀ x, x ∈ l → f x = g x) → mapM f l = mapM g l.
Proof.
  induction l as [|x l IH]; intros Hfg; simpl; [reflexivity|].
  rewrite (Hfg x) by left. rewrite IH; [reflexivity|].
  intros y Hy. apply Hfg. by right.
Qed.

Lemma mapM_result_Ok {A B} (f : A → result B) (g : A → B) (l : list A) :
  (∀ x, x ∈ l → f x = Ok (g x)) → mapM f l = Ok (g <$> l).
Proof.
  induction l as [|x l IH]; intros Hfg; simpl; [reflexivity|].
  rewrite (Hfg x) by left. simpl. rewrite IH; [reflexivity|].
  intros y Hy. apply Hfg. by right.
Qed.

(** If one element fails, the whole [mapM] fails. *)
Lemma mapM_result_Raise {A B} (f : A → result B) (l : list A) (x : A) :
  x ∈ l → is_Raise (f x) → is_Raise (mapM f l).
Proof.
  induction l as [|y l IH]; intros Hx [e He].
  - by apply not_elem_of_nil in Hx.
  - simpl. apply elem_of_cons in Hx as [->|Hx].
    + rewrite He. by exists e.
    + destruct (f y); [|by eexists].
      destruct (IH Hx) as [e' He']; [by exists e|].
      rewrite He'. by exists e'.
Qed.

(** A [mapM] whose steps raise at most one kind of exception raises at most
    that kind. *)
Lemma mapM_result_only {A B} (f : A → result B) (l : list A) (e0 : exn) :
  (∀ x, x ∈ l → is_Ok (f x) ∨ f x = Raise e0) →
  is_Ok (mapM f l) ∨ mapM f l = Raise e0.
Proof.
  induction l as [|x l IH]; intros Hf; simpl.
  - left. by eexists.
  - destruct (Hf x) as [[y ->]| ->]; [by left| |by right].
    destruct IH as [[k ->]| ->].
    + intros z Hz. apply Hf. by right.
    + left. by eexists.
    + by right.
Qed.

(** ** The strategies as functions of the object *)

Section strategies.
Variable array_rads : list R → result R.
Variable cpu_count : nat.

Local Abbreviation term := (get_expectation array_rads).
Local Abbreviation terms := (sum_of_terms array_rads).
Local Abbreviation serial := (expectation_calculation_serial array_rads cpu_count).
Local Abbreviation parallel := (expectation_calculation_parallel array_rads).
Local Abbreviation calculation := (expectation_calculation array_rads cpu_count).

(** The loop of the serial strategy adds the terms to its accumulator from
    left to right. *)
Lemma serial_loop_foldl (self : CircuitByCirq) (its : list (element * Graph)) (res : R) :
  serial_loop array_rads self its res =
  (rs ← mapM (term self) its; Ok (foldl Rplus res rs)).
Proof.
  revert res. induction its as [|item its IH]; intros res; simpl; [reflexivity|].
  destruct (term self item) as [x|e]; simpl; [|reflexivity].
  rewrite IH. destruct (mapM _ its); reflexivity.
Qed.

Lemma serial_result (w : world) : (serial w).1 = terms (obj w).
Proof.
  unfold expectation_calculation_serial, sum_of_terms.
  destruct (items (_element_to_graph (obj w))) as [its|e]; simpl; [|reflexivity].
  rewrite serial_loop_foldl.
  destruct (mapM _ its); reflexivity.
Qed.

Lemma parallel_result (w : world) : (parallel w).1 = terms (obj w).
Proof.
  unfold expectation_calculation_parallel, sum_of_terms, pool_map.
  destruct (items (_element_to_graph (obj w))) as [its|e]; simpl; [|reflexivity].
  destruct (mapM _ its); reflexivity.
Qed.

Lemma calculation_result (w : world) : (calculation w).1 = terms (obj w).
Proof.
  unfold expectation_calculation.
  destruct (_is_parallel (obj w)); [apply parallel_result | apply serial_result].
Qed.

Lemma serial_obj (w : world) : obj (serial w).2 = after (obj w) (serial w).1.
Proof.
  unfold expectation_calculation_serial.
  destruct (_ ← items _; _); reflexivity.
Qed.

Lemma parallel_obj (w : world) : obj (parallel w).2 = after (obj w) (parallel w).1.
Proof.
  unfold expectation_calculation_parallel.
  destruct (_ ← items _; _); reflexivity.
Qed.

Lemma calculation_obj (w : world) : obj (calculation w).2 = after (obj w) (calculation w).1.
Proof.
  unfold expectation_calculation.
  destruct (_is_parallel (obj w)); [apply parallel_obj | apply serial_obj].
Qed.

End strategies.

(** ** Properties of the strategies *)

Section strategy_claims.
Variable array_rads : list R → result R.
Variable cpu_count : nat.

Local Abbreviation term := (get_expectation array_rads).
Local Abbreviation terms := (sum_of_terms array_rads).
Local Abbreviation serial := (expectation_calculation_serial array_rads cpu_count).
Local Abbreviation parallel := (expectation_calculation_parallel array_rads).
Local Abbreviation calculation := (expectation_calculation array_rads cpu_count).

Lemma after_path (self : CircuitByCirq) (r : result R) :
  _expectation_path (after self r) =
  _expectation_path self ++ match r with Ok res => [res] | Raise _ => [] end.
Proof. destruct r; simpl; [reflexivity | by rewrite app_nil_r]. Qed.

Lemma terms_after (self : CircuitByCirq) (r : result R) : terms (after self r) = terms self.
Proof. destruct r; reflexivity. Qed.

(** C2: the serial and the parallel strategy return the same total, the sum
    over all (element, subgraph) pairs of the per-term contribution; one
    returns a total exactly when the other does. *)
Theorem C2_serial_parallel_same_total (w : world) :
  total (serial w).1 = total (parallel w).1 ∧
  (serial w).1 = (its ← items (_element_to_graph (obj w));
                  rs ← mapM (term (obj w)) its;
                  Ok (sum rs)) ∧
  total (parallel w).1 = total (its ← items (_element_to_graph (obj w));
                                rs ← mapM (term (obj w)) its;
                                Ok (sum rs)).
Proof.
  rewrite serial_result, parallel_result. repeat split; reflexivity.
Qed.

(** C4: the entry point runs the parallel strategy when the flag is true and
    the serial one otherwise; the constructor stores the flag it is given
    and [False] when it is given none, so that an object built without the
    flag runs the serial strategy. *)
Theorem C4_dispatch_on_flag
    (w : world) (nw : option (gmap Z R)) (ew : option (gmap (Z * Z) R))
    (environ : gmap string nat) :
  calculation w = (if _is_parallel (obj w) then parallel w else serial w) ∧
  _is_parallel (__init__ nw ew None) = false ∧
  _is_parallel (__init__ nw ew (Some true)) = true ∧
  _is_parallel (__init__ nw ew (Some false)) = false ∧
  calculation {| obj := __init__ nw ew None; os_environ := environ |} =
    serial {| obj := __init__ nw ew None; os_environ := environ |} ∧
  calculation {| obj := __init__ nw ew (Some true); os_environ := environ |} =
    parallel {| obj := __init__ nw ew (Some true); os_environ := environ |}.
Proof. repeat split; reflexivity. Qed.

Lemma appends_total_serial (w : world) : appends_total serial w.
Proof. unfold appends_total. by rewrite serial_obj, after_path. Qed.

Lemma appends_total_parallel (w : world) : appends_total parallel w.
Proof. unfold appends_total. by rewrite parallel_obj, after_path. Qed.

Lemma appends_total_calculation (w : world) : appends_total calculation w.
Proof. unfold appends_total. by rewrite calculation_obj, after_path. Qed.

Lemma keeps_inputs_after (f : world → result R * world) (w : world) :
  obj (f w).2 = after (obj w) (f w).1 → keeps_inputs f w.
Proof.
  intros Hobj. unfold keeps_inputs. simpl. rewrite Hobj.
  destruct (f w).1; repeat split; reflexivity.
Qed.

Lemma repeatable_after (f : world → result R * world) (w : world) :
  (∀ w', obj (f w').2 = after (obj w') (f w').1) →
  (∀ w', (f w').1 = terms (obj w')) →
  repeatable f w.
Proof.
  intros Hobj Hres. unfold repeatable. simpl.
  assert ((f (f w).2).1 = (f w).1) as Hsame.
  { rewrite !Hres, Hobj, Hres. apply terms_after. }
  split; [by rewrite Hsame|].
  rewrite Hobj, after_path, Hsame, Hobj, after_path.
  destruct (f w).1; simpl; [by rewrite <- app_assoc | by rewrite !app_nil_r].
Qed.

(** C8: a call of either strategy, or of the entry point, leaves the history
    as it was followed by the total it returned (unchanged if it raised);
    the outcome of a call does not depend on what the history holds;
    [visualization] changes nothing; and neither a per-term evaluation nor
    [get_operator] reads the history. *)
Theorem C8_history_append_only (w : world) :
  (appends_total serial w ∧ appends_total parallel w ∧ appends_total calculation w) ∧
  (ignores_history serial w ∧ ignores_history parallel w ∧ ignores_history calculation w) ∧
  (visualization w).2 = w ∧
  (∀ path item, term (with_expectation_path (obj w) path) item = term (obj w) item) ∧
  (∀ path e n, get_operator (with_expectation_path (obj w) path) e n =
               get_operator (obj w) e n).
Proof.
  split; [|split; [|split; [|split]]].
  - auto using appends_total_serial, appends_total_parallel, appends_total_calculation.
  - unfold ignores_history. repeat split; intros path.
    + by rewrite !serial_result.
    + by rewrite !parallel_result.
    + by rewrite !calculation_result.
  - reflexivity.
  - reflexivity.
  - reflexivity.
Qed.

(** C9: two calls in a row on the same inputs have the same outcome, the
    history grows by that total twice, and a call changes neither the
    weights, nor the depth, nor the parameter vector, nor the
    element-to-subgraph mapping. *)
Theorem C9_repeated_call (w : world) :
  (repeatable serial w ∧ repeatable parallel w ∧ repeatable calculation w) ∧
  (keeps_inputs serial w ∧ keeps_inputs parallel w ∧ keeps_inputs calculation w).
Proof.
  split; (split; [|split]).
  - apply repeatable_after; [apply serial_obj | apply serial_result].
  - apply repeatable_after; [apply parallel_obj | apply parallel_result].
  - apply repeatable_after; [apply calculation_obj | apply calculation_result].
  - apply keeps_inputs_after, serial_obj.
  - apply keeps_inputs_after, parallel_obj.
  - apply keeps_inputs_after, calculation_obj.
Qed.

End strategy_claims.

(** ** The local qubit index *)

Lemma node_to_qubit_fold_Some (l : list Z) (idxs : list nat) (m : gmap Z nat) (x : Z) (i : nat) :
  foldl (λ m i, match l !! i with Some nd => <[nd:=i]> m | None => m end) m idxs !! x = Some i →
  m !! x = Some i ∨ (i ∈ idxs ∧ l !! i = Some x).
Proof.
  revert m. induction idxs as [|j idxs IH]; intros m Hx; simpl in Hx; [by left|].
  apply IH in Hx as [Hx|[Hi Hl]].
  - destruct (l !! j) as [nd|] eqn:Hj; [|by left].
    destruct (decide (nd = x)) as [->|Hne].
    + rewrite lookup_insert_eq in Hx. injection Hx as <-. right. split; [by left|done].
    + rewrite lookup_insert_ne in Hx by done. by left.
  - right. split; [by right|done].
Qed.

Lemma node_to_qubit_fold_is_Some (l : list Z) (idxs : list nat) (m : gmap Z nat) (x : Z) :
  is_Some (m !! x) ∨ (∃ j, j ∈ idxs ∧ l !! j = Some x) →
  is_Some (foldl (λ m i, match l !! i with Some nd => <[nd:=i]> m | None => m end) m idxs !! x).
Proof.
  revert m. induction idxs as [|j idxs IH]; intros m Hx; simpl.
  - destruct Hx as [Hx|(j & Hj & _)]; [done|]. by apply not_elem_of_nil in Hj.
  - apply IH. destruct Hx as [Hx|(k & Hk & Hl)].
    + left. destruct (l !! j) as [nd|]; [|done].
      destruct (decide (nd = x)) as [->|Hne].
      * rewrite lookup_insert_eq. by eexists.
      * by rewrite lookup_insert_ne.
    + apply elem_of_cons in Hk as [->|Hk].
      * left. rewrite Hl, lookup_insert_eq. by eexists.
      * right. by exists k.
Qed.

(** An index the map holds for [x] is a position of [x] in the node list. *)
Lemma node_to_qubit_Some (l : list Z) (x : Z) (i : nat) :
  node_to_qubit l !! x = Some i → l !! i = Some x.
Proof.
  intros Hx. apply node_to_qubit_fold_Some in Hx as [Hx|[_ Hl]]; [|done].
  by rewrite lookup_empty in Hx.
Qed.

Lemma node_to_qubit_elem_of (l : list Z) (x : Z) :
  x ∈ l → is_Some (node_to_qubit l !! x).
Proof.
  intros Hx. apply node_to_qubit_fold_is_Some. right.
  apply list_elem_of_lookup in Hx as [j Hj]. exists j. split; [|done].
  apply elem_of_seq. apply lookup_lt_Some in Hj. lia.
Qed.

Lemma node_to_qubit_None (l : list Z) (x : Z) :
  x ∉ l → node_to_qubit l !! x = None.
Proof.
  intros Hx. destruct (node_to_qubit l !! x) as [i|] eqn:Hi; [|done].
  apply node_to_qubit_Some in Hi. exfalso. apply Hx.
  apply list_elem_of_lookup. by exists i.
Qed.

(** A node that is not in the node list reads as index 0. *)
Lemma defaultdict_get_absent (l : list Z) (x : Z) :
  x ∉ l → defaultdict_get (node_to_qubit l) x = 0.
Proof. intros Hx. unfold defaultdict_get. by rewrite node_to_qubit_None. Qed.

(** Unless the node list is empty, every index read is in range. *)
Lemma defaultdict_get_lt (l : list Z) (x : Z) :
  l ≠ [] → defaultdict_get (node_to_qubit l) x < length l.
Proof.
  intros Hl. unfold defaultdict_get.
  destruct (node_to_qubit l !! x) as [i|] eqn:Hi; simpl.
  - apply node_to_qubit_Some in Hi. by apply lookup_lt_Some in Hi.
  - destruct l; [done|simpl; lia].
Qed.

(** Two nodes of the list with the same index are the same node. *)
Lemma defaultdict_get_inj (l : list Z) (x y : Z) :
  x ∈ l → y ∈ l →
  defaultdict_get (node_to_qubit l) x = defaultdict_get (node_to_qubit l) y → x = y.
Proof.
  intros [i Hi]%node_to_qubit_elem_of [j Hj]%node_to_qubit_elem_of.
  unfold defaultdict_get. rewrite Hi, Hj. simpl. intros ->.
  apply node_to_qubit_Some in Hi, Hj. congruence.
Qed.

Lemma index_LineQubit_range (n i : nat) :
  i < n → index (cirq.LineQubit_range n) i = Ok i.
Proof.
  intros Hi. unfold index, cirq.LineQubit_range. by rewrite lookup_seq_lt.
Qed.

Lemma index_LineQubit_range_ge (n i : nat) :
  n ≤ i → index (cirq.LineQubit_range n) i = Raise IndexError.
Proof.
  intros Hi. unfold index, cirq.LineQubit_range. by rewrite lookup_seq_ge.
Qed.

Lemma index_node_qubit (l : list Z) (x : Z) :
  l ≠ [] →
  index (cirq.LineQubit_range (length l)) (defaultdict_get (node_to_qubit l) x) =
  Ok (defaultdict_get (node_to_qubit l) x).
Proof. intros Hl. by apply index_LineQubit_range, defaultdict_get_lt. Qed.

(** ** The circuit of one term *)

(** The layer body does not mention the layer index. *)
Lemma layer_index_unused (self : CircuitByCirq) (graph : Graph)
    (gamma_list beta_list : list R) (k k' : nat) :
  layer self graph gamma_list beta_list k = layer self graph gamma_list beta_list k'.
Proof. reflexivity. Qed.

Lemma concat_mapM_skip {A B} (f : A → result (list B)) (l1 l2 : list A) (x : A) :
  f x = Ok [] →
  (gates ← mapM f (l1 ++ x :: l2); Ok (concat gates)) =
  (gates ← mapM f (l1 ++ l2); Ok (concat gates)).
Proof.
  intros Hx. rewrite !mapM_result_app. simpl. rewrite Hx. simpl.
  destruct (mapM f l1) as [a|]; simpl; [|reflexivity].
  destruct (mapM f l2) as [b|]; simpl; [|reflexivity].
  by rewrite !concat_app.
Qed.

Lemma coupling_edge_self_loop (self : CircuitByCirq) (g : Graph) (gamma_list : list R)
    (a b : Z) :
  defaultdict_get (node_to_qubit (nodes g)) a = defaultdict_get (node_to_qubit (nodes g)) b →
  coupling_edge self g gamma_list (a, b) = Ok [].
Proof. intros Hab. unfold coupling_edge. simpl. by rewrite decide_True. Qed.

Lemma subscript_only_KeyError `{Countable K} {V} (m : gmap K V) (k : K) :
  is_Ok (subscript (Some m) k) ∨ subscript (Some m) k = Raise KeyError.
Proof. unfold subscript. destruct (m !! k); [left; by eexists | by right]. Qed.

(** With the weights, the depth and the parameters attached, building the
    circuit can only fail on a weight that is missing. *)
Lemma build_circuit_only_KeyError (self : CircuitByCirq) (g : Graph) :
  attached self →
  is_Ok (build_circuit self g) ∨ build_circuit self g = Raise KeyError.
Proof.
  intros ([p Hp] & [pargs Hpargs] & [nw Hnw] & [ew Hew]).
  unfold build_circuit. rewrite Hp, Hpargs. simpl.
  set (gamma_list := take p pargs). set (beta_list := drop p pargs).
  destruct (mapM_result_only (layer self g gamma_list beta_list) (seq 0 p) KeyError)
    as [[ls ->]| ->]; [|left; by eexists|by right].
  intros k _. unfold layer.
  assert (∀ x, x ∈ nodes g → nodes g ≠ []) as Hne.
  { intros x Hx Hnil. rewrite Hnil in Hx. by apply not_elem_of_nil in Hx. }
  destruct (mapM_result_only (λ i,
      w ← subscript (_nodes_weight self) i;
      q ← index (cirq.LineQubit_range (length (nodes g)))
                (defaultdict_get (node_to_qubit (nodes g)) i);
      Ok (cirq.Op (cirq.rz (cirq.ndarray (np_rmul (np_lmul 2 gamma_list) w)) q)))
    (nodes g) KeyError) as [[a Ha]|Ha].
  { intros i Hi. rewrite Hnw, index_node_qubit by eauto.
    destruct (subscript_only_KeyError nw i) as [[w ->]| ->]; [left; by eexists|by right]. }
  2:{ right. unfold cost_phase. by rewrite Ha. }
  unfold cost_phase. rewrite Ha. simpl.
  destruct (mapM_result_only (coupling_edge self g gamma_list) (edges g) KeyError)
    as [[b Hb]|Hb].
  { intros [e0 e1] _. unfold coupling_edge. simpl.
    destruct (decide _) as [|Huv]; [left; by eexists|].
    assert (nodes g ≠ []) as Hnodes.
    { intros Hnil. apply Huv. by rewrite Hnil. }
    rewrite !index_node_qubit by done. simpl. rewrite Hew.
    destruct (subscript_only_KeyError ew (e0, e1)) as [[w ->]| ->];
      [left; by eexists|by right]. }
  2:{ right. unfold coupling. by rewrite Hb. }
  unfold coupling. rewrite Hb. simpl.
  unfold mixer.
  erewrite (mapM_result_Ok _ (λ nd, cirq.Moment
     (cirq.rx (cirq.ndarray (np_lmul 2 beta_list))
        (defaultdict_get (node_to_qubit (nodes g)) nd)))).
  - left. by eexists.
  - intros nd Hnd. by rewrite index_node_qubit by eauto.
Qed.

(** C1, at depth 2 on the one-node graph with weight 1, [gamma = [1, 2]] and
    [beta = [3, 4]]: the specification puts in layer 0 the angles [2*1*1]
    and [2*3], in layer 1 the angles [2*2*1] and [2*4]; the code passes in
    both layers the whole arrays [2 * gamma_list * weight] and
    [2 * beta_list]. *)
Theorem C1_layers_of_depth_2 :
  build_circuit engine_depth_2 graph_1 =
    Ok [cirq.Op (cirq.H 0);
        cirq.Op (cirq.rz (cirq.ndarray [(2 * 1 * 1)%R; (2 * 2 * 1)%R]) 0);
        cirq.Moment (cirq.rx (cirq.ndarray [(2 * 3)%R; (2 * 4)%R]) 0);
        cirq.Op (cirq.rz (cirq.ndarray [(2 * 1 * 1)%R; (2 * 2 * 1)%R]) 0);
        cirq.Moment (cirq.rx (cirq.ndarray [(2 * 3)%R; (2 * 4)%R]) 0)] ∧
  specified_layer engine_depth_2 graph_1 [1%R; 2%R] [3%R; 4%R] 0 =
    Ok [cirq.Op (cirq.rz (cirq.scalar (2 * 1 * 1)) 0);
        cirq.Moment (cirq.rx (cirq.scalar (2 * 3)) 0)] ∧
  specified_layer engine_depth_2 graph_1 [1%R; 2%R] [3%R; 4%R] 1 =
    Ok [cirq.Op (cirq.rz (cirq.scalar (2 * 2 * 1)) 0);
        cirq.Moment (cirq.rx (cirq.scalar (2 * 4)) 0)].
Proof. repeat split; reflexivity. Qed.

Lemma mul_Z_ne (q1 q2 : nat) : q1 ≠ q2 → cirq.mul (cirq.Z q1) (cirq.Z q2) = [q1; q2].
Proof.
  intros Hne. unfold cirq.mul, cirq.Z.
  rewrite !filter_cons_True, !filter_nil; [reflexivity|..];
    intros Hin%list_elem_of_singleton; congruence.
Qed.

Lemma mul_Z_eq (q : nat) : cirq.mul (cirq.Z q) (cirq.Z q) = [].
Proof.
  unfold cirq.mul, cirq.Z.
  rewrite !filter_cons_False, !filter_nil; [reflexivity|..];
    intros Hin; apply Hin; by left.
Qed.

Section term_claims.
Variable array_rads : list R → result R.
Variable cpu_count : nat.

Local Abbreviation term := (get_expectation array_rads).
Local Abbreviation terms := (sum_of_terms array_rads).
Local Abbreviation serial := (expectation_calculation_serial array_rads cpu_count).
Local Abbreviation parallel := (expectation_calculation_parallel array_rads).
Local Abbreviation calculation := (expectation_calculation array_rads cpu_count).

Lemma layer_skip_self_loop (self : CircuitByCirq) (ns : list Z) (es1 es2 : list (Z * Z))
    (a b : Z) (gamma_list beta_list : list R) (k : nat) :
  defaultdict_get (node_to_qubit ns) a = defaultdict_get (node_to_qubit ns) b →
  layer self {| nodes := ns; edges := es1 ++ (a, b) :: es2 |} gamma_list beta_list k =
  layer self {| nodes := ns; edges := es1 ++ es2 |} gamma_list beta_list k.
Proof.
  intros Hab. unfold layer.
  change (cost_phase self {| nodes := ns; edges := es1 ++ (a, b) :: es2 |} gamma_list)
    with (cost_phase self {| nodes := ns; edges := es1 ++ es2 |} gamma_list).
  destruct (cost_phase _ _ _) as [c|]; simpl; [|reflexivity].
  unfold coupling. simpl.
  change (coupling_edge self {| nodes := ns; edges := es1 ++ (a, b) :: es2 |} gamma_list)
    with (coupling_edge self {| nodes := ns; edges := es1 ++ es2 |} gamma_list).
  rewrite concat_mapM_skip; [reflexivity|].
  by apply coupling_edge_self_loop.
Qed.

(** C6: an edge whose endpoints have the same local qubit gets no gate and
    no weight lookup, whatever the weights hold; the circuit, and with it the
    outcome of the evaluation, is that of the subgraph without the edge. *)
Theorem C6_self_loop_skipped (self : CircuitByCirq) (e : element) (ns : list Z)
    (es1 es2 : list (Z * Z)) (a b : Z) (gamma_list : list R) :
  defaultdict_get (node_to_qubit ns) a = defaultdict_get (node_to_qubit ns) b →
  coupling_edge self {| nodes := ns; edges := es1 ++ (a, b) :: es2 |} gamma_list (a, b) = Ok [] ∧
  build_circuit self {| nodes := ns; edges := es1 ++ (a, b) :: es2 |} =
    build_circuit self {| nodes := ns; edges := es1 ++ es2 |} ∧
  term self (e, {| nodes := ns; edges := es1 ++ (a, b) :: es2 |}) =
    term self (e, {| nodes := ns; edges := es1 ++ es2 |}).
Proof.
  intros Hab.
  assert (build_circuit self {| nodes := ns; edges := es1 ++ (a, b) :: es2 |} =
          build_circuit self {| nodes := ns; edges := es1 ++ es2 |}) as Hcirc.
  { unfold build_circuit. simpl.
    destruct (attr (_pargs self)) as [pargs|]; simpl; [|reflexivity].
    destruct (attr (_p self)) as [p|]; simpl; [|reflexivity].
    erewrite mapM_result_ext; [reflexivity|].
    intros k _. by apply layer_skip_self_loop. }
  split; [by apply coupling_edge_self_loop|]. split; [exact Hcirc|].
  unfold get_expectation. by rewrite Hcirc.
Qed.

Lemma observable_weight_absent (self : CircuitByCirq) (e : element) (g : Graph) :
  weight_absent self e → observable self e g = Raise KeyError.
Proof.
  destruct e as [n|a b]; intros (m & Hm & Hnone); unfold observable;
    rewrite Hm; simpl; by rewrite Hnone.
Qed.

Lemma term_weight_absent (self : CircuitByCirq) (e : element) (g : Graph) :
  attached self → weight_absent self e → term self (e, g) = Raise KeyError.
Proof.
  intros Hatt Habs. unfold get_expectation.
  destruct (build_circuit_only_KeyError self g Hatt) as [[circ ->]| ->]; [|reflexivity].
  simpl. by rewrite observable_weight_absent.
Qed.

Lemma terms_Raise (self : CircuitByCirq) (its : list (element * Graph))
    (item : element * Graph) :
  _element_to_graph self = Some its → item ∈ its → is_Raise (term self item) →
  is_Raise (terms self).
Proof.
  intros Hits Hitem Hraise. unfold sum_of_terms. rewrite Hits. simpl.
  destruct (mapM_result_Raise (term self) its item Hitem Hraise) as [e ->].
  by exists e.
Qed.

(** C7: with weights, depth and parameters attached, evaluating an element
    that has no entry in its weight mapping raises [KeyError]; a computation
    whose mapping holds such an element raises, under either strategy and
    through the entry point, returns no total and leaves the object, its
    history included, as it was. *)
Theorem C7_missing_weight_is_fatal (w : world) (e : element) (g : Graph)
    (its : list (element * Graph)) :
  attached (obj w) →
  weight_absent (obj w) e →
  _element_to_graph (obj w) = Some its →
  (e, g) ∈ its →
  term (obj w) (e, g) = Raise KeyError ∧
  (total (serial w).1 = None ∧ obj (serial w).2 = obj w) ∧
  (total (parallel w).1 = None ∧ obj (parallel w).2 = obj w) ∧
  (total (calculation w).1 = None ∧ obj (calculation w).2 = obj w).
Proof.
  intros Hatt Habs Hits Hin.
  pose proof (term_weight_absent _ e g Hatt Habs) as Hterm.
  assert (is_Raise (terms (obj w))) as [err Herr].
  { eapply terms_Raise; [done..|]. rewrite Hterm. by eexists. }
  split; [done|].
  rewrite serial_obj, parallel_obj, calculation_obj.
  rewrite serial_result, parallel_result, calculation_result, Herr.
  by repeat split.
Qed.

(** On a subgraph without nodes the qubit list is empty: once the weight is
    found, taking the qubit of the element raises [IndexError]. *)
Lemma observable_no_nodes (self : CircuitByCirq) (e : element) (g : Graph) (weight : R) :
  nodes g = [] → element_weight self e = Ok weight →
  observable self e g = Raise IndexError.
Proof.
  intros Hnil Hw. unfold observable. rewrite Hnil.
  destruct e as [n|a b]; simpl in Hw; rewrite Hw; reflexivity.
Qed.

(** C10 (amended): a node that is not among the subgraph's nodes reads as
    local index 0, without an error, and when the subgraph has at least one
    node, position 0 of the qubit list exists.  The weight lookup is then
    the only step of forming the observable that can fail; past it, the
    observable of a node term for the absent node is [Z] on qubit 0, and
    that of an edge term with an absent endpoint is [Z] on qubit 0 times the
    [Z] of the other endpoint: [Z] on qubits 0 and [q] if the other endpoint
    has local qubit [q] other than 0, the identity if it has local qubit 0
    as well. *)
Theorem C10_absent_node_reads_qubit_0 (self : CircuitByCirq) (g : Graph) (x b : Z) :
  x ∉ nodes g →
  nodes g ≠ [] →
  defaultdict_get (node_to_qubit (nodes g)) x = 0 ∧
  index (cirq.LineQubit_range (length (nodes g)))
        (defaultdict_get (node_to_qubit (nodes g)) x) = Ok 0 ∧
  observable self (Node x) g =
    (weight ← subscript (_nodes_weight self) x; Ok (weight, [0])) ∧
  observable self (Edge x b) g =
    (weight ← subscript (_edges_weight self) (x, b);
     Ok (weight, if decide (defaultdict_get (node_to_qubit (nodes g)) b = 0)
                 then [] else [0; defaultdict_get (node_to_qubit (nodes g)) b])) ∧
  observable self (Edge b x) g =
    (weight ← subscript (_edges_weight self) (b, x);
     Ok (weight, if decide (defaultdict_get (node_to_qubit (nodes g)) b = 0)
                 then [] else [defaultdict_get (node_to_qubit (nodes g)) b; 0])).
Proof.
  intros Hx Hne.
  pose proof (defaultdict_get_absent _ _ Hx) as H0.
  split; [done|]. split; [by rewrite index_node_qubit, H0|].
  unfold observable. repeat split.
  - destruct (subscript _ x); simpl; [|reflexivity].
    by rewrite index_node_qubit, H0.
  - destruct (subscript _ (x, b)); simpl; [|reflexivity].
    rewrite !index_node_qubit, H0 by done. simpl.
    destruct (decide _) as [->|Hb]; [by rewrite mul_Z_eq|].
    by rewrite mul_Z_ne by done.
  - destruct (subscript _ (b, x)); simpl; [|reflexivity].
    rewrite !index_node_qubit, H0 by done. simpl.
    destruct (decide _) as [->|Hb]; [by rewrite mul_Z_eq|].
    by rewrite mul_Z_ne by done.
Qed.

End term_claims.

(** C10, as stated, fails on a subgraph without nodes: node 5 has a weight
    and is not in the subgraph, its local index reads as 0, and indexing the
    empty qubit list at 0 raises [IndexError]. *)
Lemma C10_empty_subgraph_raises :
  (5%Z ∉ nodes graph_empty) ∧
  defaultdict_get (node_to_qubit (nodes graph_empty)) 5 = 0 ∧
  subscript (_nodes_weight engine_absent_node) 5%Z = Ok 1%R ∧
  build_circuit engine_absent_node graph_empty = Ok [] ∧
  observable engine_absent_node (Node 5) graph_empty = Raise IndexError ∧
  get_expectation broadcast_rads engine_absent_node (Node 5, graph_empty) = Raise IndexError.
Proof.
  split; [apply not_elem_of_nil|]. repeat split; reflexivity.
Qed.

(** ** Complex arithmetic *)







Lemma Copp_involutive (z : C) : Copp (Copp z) = z.
Proof. destruct z. unfold Copp. simpl. f_equal; ring. Qed.







(** ** Basis states *)

Lemma bitstrings_length (n : nat) : length (cirq.bitstrings n) = 2 ^ n.
Proof.
  induction n as [|n IH]; simpl; [reflexivity|].
  rewrite length_app, !length_fmap, IH. lia.
Qed.






(** ** The simulator on a layer of Hadamards *)






(** ** The expectation of a Pauli string *)

Lemma qubit_map_lookup (n q : nat) : q < n → qubit_map n !! q = Some q.
Proof.
  intros Hq. unfold qubit_map, cirq.LineQubit_range.
  apply elem_of_list_to_map_1.
  - rewrite fst_zip by done. apply NoDup_seq.
  - apply list_elem_of_lookup. exists q.
    rewrite lookup_zip_with. rewrite lookup_seq_lt by done. reflexivity.
Qed.

Lemma Z_along_fmap (n axis : nat) (φ : cirq.ket) :
  cirq.Z_along n axis (φ <$> cirq.bitstrings n) = cirq.apply_Z axis φ <$> cirq.bitstrings n.
Proof.
  unfold cirq.Z_along. rewrite zip_with_fmap_r, zip_with_diag. reflexivity.
Qed.

(** On the state vector of [ψ], the expectation of a Pauli string whose
    qubits are in range is [⟨ψ| Z … Z |ψ⟩]. *)
Lemma expectation_from_state_vector_inner (op : list nat) (n : nat) (ψ : cirq.ket) :
  Forall (λ q, q < n) op →
  cirq.expectation_from_state_vector op (ψ <$> cirq.bitstrings n) (qubit_map n) =
  Ok (cirq.inner n ψ (foldr cirq.apply_Z ψ op)).
Proof.
  intros Hop. unfold cirq.expectation_from_state_vector.
  rewrite (mapM_result_Ok _ (@Datatypes.id nat)).
  2:{ intros q Hq. rewrite Forall_forall in Hop. by rewrite qubit_map_lookup by auto. }
  simpl. f_equal. rewrite list_fmap_id, length_fmap, bitstrings_length.
  assert (Nat.log2 (2 ^ n) = n) as -> by (apply Nat.log2_pow2; lia).
  assert (foldr (cirq.Z_along n) (ψ <$> cirq.bitstrings n) op =
          foldr cirq.apply_Z ψ op <$> cirq.bitstrings n) as ->.
  { clear Hop. induction op as [|q op IH]; simpl; [reflexivity|].
    by rewrite IH, Z_along_fmap. }
  unfold cirq.inner. rewrite zip_with_fmap_l, zip_with_fmap_r, zip_with_diag.
  reflexivity.
Qed.

Lemma inner_ext (n : nat) (φ ψ ψ' : cirq.ket) :
  (∀ x, ψ x = ψ' x) → cirq.inner n φ ψ = cirq.inner n φ ψ'.
Proof.
  intros Hext. unfold cirq.inner. f_equal.
  apply list_fmap_ext. intros _ x _. by rewrite Hext.
Qed.

Lemma apply_Z_twice (q : nat) (ψ : cirq.ket) (x : list bool) :
  cirq.apply_Z q (cirq.apply_Z q ψ) x = ψ x.
Proof. unfold cirq.apply_Z. destruct (cirq.bit x q); [apply Copp_involutive|reflexivity]. Qed.




(** ** The value of a term *)

Section value_claims.
Variable array_rads : list R → result R.
Variable cpu_count : nat.

Local Abbreviation term := (get_expectation array_rads).
Local Abbreviation terms := (sum_of_terms array_rads).
Local Abbreviation serial := (expectation_calculation_serial array_rads cpu_count).
Local Abbreviation parallel := (expectation_calculation_parallel array_rads).
Local Abbreviation calculation := (expectation_calculation array_rads cpu_count).

Lemma nodes_ne_of_qubits_ne (g : Graph) (a b : Z) :
  defaultdict_get (node_to_qubit (nodes g)) a ≠ defaultdict_get (node_to_qubit (nodes g)) b →
  nodes g ≠ [].
Proof. intros Hne Hnil. apply Hne. by rewrite Hnil. Qed.

(** The value of a term whose circuit has been built and simulated. *)
Lemma term_inner (self : CircuitByCirq) (e : element) (g : Graph)
    (circ : cirq.Circuit) (ψ : cirq.ket) (weight : R) :
  build_circuit self g = Ok circ →
  cirq.final_state array_rads circ = Ok ψ →
  element_weight self e = Ok weight →
  nodes g ≠ [] →
  term self (e, g) =
  Ok (weight * real (cirq.inner (length (nodes g)) ψ (element_operator e g ψ)))%R.
Proof.
  intros Hcirc Hψ Hw Hne. unfold get_expectation, cirq.final_state_vector.
  rewrite Hcirc. simpl.
  pose proof (defaultdict_get_lt (nodes g)) as Hlt.
  destruct e as [x|a b]; simpl in Hw; unfold observable; rewrite Hw; simpl.
  - rewrite index_node_qubit by done. simpl. rewrite Hψ. simpl.
    rewrite expectation_from_state_vector_inner; [reflexivity|].
    apply Forall_singleton; auto.
  - rewrite !index_node_qubit by done. simpl. rewrite Hψ. simpl.
    destruct (decide (defaultdict_get (node_to_qubit (nodes g)) a =
                      defaultdict_get (node_to_qubit (nodes g)) b)) as [Heq|Hneq].
    + rewrite Heq, mul_Z_eq.
      rewrite expectation_from_state_vector_inner by constructor. simpl.
      do 3 f_equal. apply inner_ext. intros x. symmetry. apply apply_Z_twice.
    + rewrite mul_Z_ne by done.
      rewrite expectation_from_state_vector_inner; [reflexivity|].
      repeat constructor; auto.
Qed.

(** C3: for a term whose circuit is built and simulated to the state [ψ],
    whose element has the weight [weight] and whose subgraph has a node, the
    evaluator returns [weight * Re ⟨ψ|O|ψ⟩], where [O] is [Z] on the local
    qubit of a node element and the product of the [Z]s on the local qubits
    of the endpoints of an edge element; the weight is that of the node in
    [nodes_weight], of the pair in [edges_weight]. *)
Theorem C3_term_is_weighted_expectation (self : CircuitByCirq) (e : element) (g : Graph)
    (circ : cirq.Circuit) (ψ : cirq.ket) (weight : R) :
  build_circuit self g = Ok circ →
  cirq.final_state array_rads circ = Ok ψ →
  element_weight self e = Ok weight →
  nodes g ≠ [] →
  cirq.final_state_vector array_rads (length (nodes g)) circ =
    Ok (ψ <$> cirq.bitstrings (length (nodes g))) ∧
  term self (e, g) =
    Ok (weight * real (cirq.inner (length (nodes g)) ψ (element_operator e g ψ)))%R ∧
  match e with
  | Node n =>
      subscript (_nodes_weight self) n = Ok weight ∧
      element_operator e g ψ =
        cirq.apply_Z (defaultdict_get (node_to_qubit (nodes g)) n) ψ
  | Edge a b =>
      subscript (_edges_weight self) (a, b) = Ok weight ∧
      element_operator e g ψ =
        cirq.apply_Z (defaultdict_get (node_to_qubit (nodes g)) a)
          (cirq.apply_Z (defaultdict_get (node_to_qubit (nodes g)) b) ψ)
  end.
Proof.
  intros Hcirc Hψ Hw Hne. split; [|split].
  - unfold cirq.final_state_vector. by rewrite Hψ.
  - by apply (term_inner self e g circ).
  - destruct e; by split.
Qed.




End value_claims.

(** ** Instances at concrete inputs *)

Lemma C3_witness :
  build_circuit engine_depth_1 graph_2 = Ok circuit_depth_1 ∧
  cirq.final_state broadcast_rads circuit_depth_1 = Ok state_depth_1 ∧
  element_weight engine_depth_1 (Edge 0 1) = Ok 1%R ∧
  nodes graph_2 ≠ [] ∧
  get_expectation broadcast_rads engine_depth_1 (Edge 0 1, graph_2) =
    Ok (1 * real (cirq.inner 2 state_depth_1
                    (cirq.apply_Z 0 (cirq.apply_Z 1 state_depth_1))))%R.
Proof.
  assert (nodes graph_2 ≠ []) as Hne by discriminate.
  do 3 (split; [reflexivity|]). split; [exact Hne|].
  destruct (C3_term_is_weighted_expectation broadcast_rads engine_depth_1 (Edge 0 1)
              graph_2 circuit_depth_1 state_depth_1 1%R eq_refl eq_refl eq_refl Hne)
    as (_ & Hterm & _).
  exact Hterm.
Defined.


(** The self-loop on node 1 has no entry in the edge weights; the edge term
    of the graph that carries it is evaluated all the same. *)
Example self_loop_without_weight_evaluates :
  unit_edges_weight !! (1%Z, 1%Z) = None ∧
  get_expectation broadcast_rads engine_depth_1 (Edge 0 1, graph_2_loop) =
    Ok (1 * real (cirq.inner 2 state_depth_1
                    (cirq.apply_Z 0 (cirq.apply_Z 1 state_depth_1))))%R.
Proof.
  split; [reflexivity|].
  by apply (term_inner broadcast_rads engine_depth_1 (Edge 0 1) graph_2_loop
              circuit_depth_1 state_depth_1 1%R).
Qed.

Lemma C6_witness :
  defaultdict_get (node_to_qubit [0%Z; 1%Z]) 1 = defaultdict_get (node_to_qubit [0%Z; 1%Z]) 1 ∧
  coupling_edge engine_depth_1 graph_2_loop [1%R] (1%Z, 1%Z) = Ok [] ∧
  build_circuit engine_depth_1 graph_2_loop = build_circuit engine_depth_1 graph_2 ∧
  get_expectation broadcast_rads engine_depth_1 (Edge 0 1, graph_2_loop) =
    get_expectation broadcast_rads engine_depth_1 (Edge 0 1, graph_2).
Proof.
  split; [reflexivity|].
  apply (C6_self_loop_skipped broadcast_rads engine_depth_1 (Edge 0 1)
           [0%Z; 1%Z] [(0%Z, 1%Z)] [] 1%Z 1%Z [1%R]).
  reflexivity.
Defined.

Lemma C7_witness :
  attached engine_missing_weight ∧
  weight_absent engine_missing_weight (Node 7) ∧
  get_expectation broadcast_rads engine_missing_weight (Node 7, graph_2) = Raise KeyError ∧
  total (expectation_calculation broadcast_rads 4 (world_of engine_missing_weight)).1 = None.
Proof.
  assert (attached engine_missing_weight) as Hatt.
  { repeat split; by eexists. }
  assert (weight_absent engine_missing_weight (Node 7)) as Habs.
  { eexists. split; reflexivity. }
  split; [exact Hatt|]. split; [exact Habs|].
  destruct (C7_missing_weight_is_fatal broadcast_rads 4 (world_of engine_missing_weight)
              (Node 7) graph_2 [(Node 0, graph_2); (Node 7, graph_2)] Hatt Habs eq_refl)
    as (Hterm & _ & _ & Htotal & _).
  - apply elem_of_cons. right. apply elem_of_cons. by left.
  - split; [exact Hterm | exact Htotal].
Defined.

Lemma C10_witness :
  (5%Z ∉ nodes graph_2) ∧
  nodes graph_2 ≠ [] ∧
  defaultdict_get (node_to_qubit (nodes graph_2)) 5 = 0 ∧
  observable engine_node_5 (Node 5) graph_2 = Ok (2%R, [0]) ∧
  observable engine_node_5 (Edge 5 1) graph_2 = Ok (4%R, [0; 1]) ∧
  observable engine_node_5 (Edge 5 0) graph_2 = Ok (6%R, []).
Proof.
  assert (5%Z ∉ nodes graph_2) as Habs.
  { intros Hin. repeat (apply elem_of_cons in Hin as [Hin|Hin]; [discriminate|]).
    by apply not_elem_of_nil in Hin. }
  assert (nodes graph_2 ≠ []) as Hne by discriminate.
  split; [exact Habs|]. split; [exact Hne|].
  destruct (C10_absent_node_reads_qubit_0 engine_node_5 graph_2 5%Z 1%Z Habs Hne)
    as (H0 & _ & Hnode & Hedge1 & _).
  destruct (C10_absent_node_reads_qubit_0 engine_node_5 graph_2 5%Z 0%Z Habs Hne)
    as (_ & _ & _ & Hedge0 & _).
  split; [exact H0|]. split; [exact Hnode|]. split; [exact Hedge1 | exact Hedge0].
Defined.

(** ** Further properties: the local index and the circuit *)

(** In a node list without repetition, the node at position [i] has local
    qubit index [i]. *)
Theorem local_index_is_position (l : list Z) (i : nat) (x : Z) :
  NoDup l → l !! i = Some x →
  node_to_qubit l !! x = Some i ∧ defaultdict_get (node_to_qubit l) x = i.
Proof.
  intros Hnd Hi.
  assert (node_to_qubit l !! x = Some i) as Hx.
  { destruct (node_to_qubit_elem_of l x) as [j Hj].
    { apply list_elem_of_lookup. by exists i. }
    pose proof (node_to_qubit_Some _ _ _ Hj) as Hj'.
    by rewrite (NoDup_lookup l i j x Hnd Hi Hj'). }
  split; [exact Hx|]. unfold defaultdict_get. by rewrite Hx.
Qed.

Lemma local_index_is_position_witness :
  NoDup (nodes graph_3) ∧ nodes graph_3 !! 2 = Some 9%Z ∧
  defaultdict_get (node_to_qubit (nodes graph_3)) 9 = 2.
Proof.
  assert (NoDup (nodes graph_3)) as Hnd.
  { repeat (apply NoDup_cons; split;
            [intros Hin; repeat (apply elem_of_cons in Hin as [Hin|Hin]; [discriminate|]);
             by apply not_elem_of_nil in Hin|]).
    apply NoDup_nil_2. }
  split; [exact Hnd|]. split; [reflexivity|].
  apply (local_index_is_position (nodes graph_3) 2 9%Z Hnd eq_refl).
Defined.

Lemma mapM_result_Forall {A B} (f : A → result B) (P : B → Prop) (l : list A) (r : list B) :
  (∀ x y, x ∈ l → f x = Ok y → P y) → mapM f l = Ok r → Forall P r.
Proof.
  revert r. induction l as [|x l IH]; intros r Hf Hr; simpl in Hr.
  - injection Hr as <-. constructor.
  - destruct (f x) as [y|] eqn:Hy; simpl in Hr; [|discriminate].
    destruct (mapM f l) as [k|] eqn:Hk; simpl in Hr; [|discriminate].
    injection Hr as <-. constructor.
    + apply (Hf x); [by left|done].
    + apply IH; [|done]. intros z y' Hz. apply Hf. by right.
Qed.

Lemma index_LineQubit_range_Ok (n i q : nat) :
  index (cirq.LineQubit_range n) i = Ok q → q = i ∧ i < n.
Proof.
  unfold index, cirq.LineQubit_range. intros Hq.
  destruct (seq 0 n !! i) as [q'|] eqn:Hi; [|discriminate].
  injection Hq as ->. by apply lookup_seq in Hi as [-> ?].
Qed.

Lemma layer_within (self : CircuitByCirq) (g : Graph) (gamma_list beta_list : list R)
    (k : nat) (L : list cirq.entry) :
  layer self g gamma_list beta_list k = Ok L →
  Forall (λ e, operation_within (length (nodes g)) (cirq.entry_operation e)) L.
Proof.
  unfold layer. intros HL.
  destruct (cost_phase self g gamma_list) as [a|] eqn:Ha; simpl in HL; [|discriminate].
  destruct (coupling self g gamma_list) as [b'|] eqn:Hb'; simpl in HL; [|discriminate].
  destruct (mixer g beta_list) as [c|] eqn:Hc; simpl in HL; [|discriminate].
  injection HL as <-. unfold cost_phase in Ha. unfold coupling in Hb'. unfold mixer in Hc.
  destruct (mapM _ (edges g)) as [b|] eqn:Hb; simpl in Hb'; [|discriminate].
  injection Hb' as <-.
  rewrite !Forall_app. split; [|split].
  - eapply mapM_result_Forall; [|exact Ha]. intros i y _ Hy. simpl in Hy.
    destruct (subscript _ i); simpl in Hy; [|discriminate].
    destruct (index _ _) as [q|] eqn:Hq; simpl in Hy; [|discriminate].
    injection Hy as <-. simpl. by apply index_LineQubit_range_Ok in Hq as [-> ?].
  - apply Forall_concat. eapply mapM_result_Forall; [|exact Hb].
    intros [e0 e1] y _ Hy. unfold coupling_edge in Hy. simpl in Hy.
    destruct (decide _) as [|Hne]; [injection Hy as <-; constructor|].
    destruct (index _ (defaultdict_get _ e0)) as [qu|] eqn:Hqu; simpl in Hy; [|discriminate].
    destruct (index _ (defaultdict_get _ e1)) as [qv|] eqn:Hqv; simpl in Hy; [|discriminate].
    destruct (subscript _ _); simpl in Hy; [|discriminate].
    injection Hy as <-.
    apply index_LineQubit_range_Ok in Hqu as [-> ?], Hqv as [-> ?].
    repeat constructor; simpl; auto.
  - eapply mapM_result_Forall; [|exact Hc]. intros nd y _ Hy. simpl in Hy.
    destruct (index _ _) as [q|] eqn:Hq; simpl in Hy; [|discriminate].
    injection Hy as <-. simpl. by apply index_LineQubit_range_Ok in Hq as [-> ?].
Qed.

Lemma build_circuit_within (self : CircuitByCirq) (g : Graph) (circ : list cirq.entry) :
  build_circuit self g = Ok circ →
  take (length (nodes g)) circ = hadamards (length (nodes g)) ∧
  Forall (λ e, operation_within (length (nodes g)) (cirq.entry_operation e)) circ.
Proof.
  unfold build_circuit. intros Hc.
  destruct (attr (_pargs self)) as [pargs|]; simpl in Hc; [|discriminate].
  destruct (attr (_p self)) as [p|]; simpl in Hc; [|discriminate].
  destruct (mapM _ (seq 0 p)) as [ls|] eqn:Hls; simpl in Hc; [|discriminate].
  injection Hc as <-. split.
  - rewrite take_app_length'; [reflexivity|].
    rewrite length_fmap. unfold cirq.LineQubit_range. by rewrite length_seq.
  - apply Forall_app. split.
    + apply Forall_fmap, Forall_forall. intros q Hq. simpl.
      unfold cirq.LineQubit_range in Hq. apply elem_of_seq in Hq. lia.
    + apply Forall_concat. eapply mapM_result_Forall; [|exact Hls].
      intros k L _ HL. by eapply layer_within.
Qed.

(** A circuit that [build_circuit] returns starts with one Hadamard on each
    qubit of the register, in order, and all its operations stay within the
    register; no [CX] has its control as target. *)
Theorem build_circuit_within_register (self : CircuitByCirq) (g : Graph)
    (circ : list cirq.entry) :
  build_circuit self g = Ok circ →
  take (length (nodes g)) circ = hadamards (length (nodes g)) ∧
  Forall (λ e, operation_within (length (nodes g)) (cirq.entry_operation e)) circ.
Proof. apply build_circuit_within. Qed.

Lemma build_circuit_within_register_witness :
  build_circuit engine_depth_1 graph_2 = Ok circuit_depth_1 ∧
  take 2 circuit_depth_1 = hadamards 2 ∧
  Forall (λ e, operation_within 2 (cirq.entry_operation e)) circuit_depth_1.
Proof.
  split; [reflexivity|].
  apply (build_circuit_within_register engine_depth_1 graph_2 circuit_depth_1 eq_refl).
Defined.

Lemma length_concat_replicate {A} (k : nat) (l : list A) :
  length (concat (replicate k l)) = k * length l.
Proof. induction k as [|k IH]; simpl; [reflexivity|]. rewrite length_app, IH. lia. Qed.

(** The circuit is the Hadamards followed by [p] copies of one and the same
    layer, so it has [n + p * |layer|] entries; that layer is built from the
    whole slices [pargs[:p]] and [pargs[p:]]. *)
Theorem build_circuit_repeats_layer (self : CircuitByCirq) (g : Graph)
    (p : nat) (pargs : list R) (L : list cirq.entry) :
  _p self = Some p → _pargs self = Some pargs →
  layer self g (take p pargs) (drop p pargs) 0 = Ok L →
  build_circuit self g = Ok (hadamards (length (nodes g)) ++ concat (replicate p L)) ∧
  length (hadamards (length (nodes g)) ++ concat (replicate p L)) =
    length (nodes g) + p * length L.
Proof.
  intros Hp Hpargs HL.
  assert (build_circuit self g =
          Ok (hadamards (length (nodes g)) ++ concat (replicate p L))) as Hc.
  { unfold build_circuit. rewrite Hp, Hpargs. simpl.
    rewrite (mapM_result_Ok _ (λ _, L)) by (intros k _; exact HL). simpl.
    rewrite (const_fmap _ (seq 0 p) L) by done. by rewrite length_seq. }
  split; [exact Hc|].
  rewrite length_app, length_concat_replicate. unfold hadamards, cirq.LineQubit_range.
  by rewrite length_fmap, length_seq.
Qed.

Lemma build_circuit_repeats_layer_witness :
  layer engine_depth_2 graph_1 (take 2 [1%R; 2%R; 3%R; 4%R]) (drop 2 [1%R; 2%R; 3%R; 4%R]) 0 =
    Ok [cirq.Op (cirq.rz (cirq.ndarray [(2 * 1 * 1)%R; (2 * 2 * 1)%R]) 0);
        cirq.Moment (cirq.rx (cirq.ndarray [(2 * 3)%R; (2 * 4)%R]) 0)] ∧
  build_circuit engine_depth_2 graph_1 =
    Ok (hadamards 1 ++ concat (replicate 2
      [cirq.Op (cirq.rz (cirq.ndarray [(2 * 1 * 1)%R; (2 * 2 * 1)%R]) 0);
       cirq.Moment (cirq.rx (cirq.ndarray [(2 * 3)%R; (2 * 4)%R]) 0)])).
Proof.
  split; [reflexivity|].
  destruct (build_circuit_repeats_layer engine_depth_2 graph_1 2 [1%R; 2%R; 3%R; 4%R]
              [cirq.Op (cirq.rz (cirq.ndarray [(2 * 1 * 1)%R; (2 * 2 * 1)%R]) 0);
               cirq.Moment (cirq.rx (cirq.ndarray [(2 * 3)%R; (2 * 4)%R]) 0)]
              eq_refl eq_refl eq_refl) as [Hc _].
  exact Hc.
Defined.

(** The weight mapping of the subgraph's nodes, or of its edges between
    different local qubits, lacks an entry. *)
Lemma layer_missing_weight (self : CircuitByCirq) (g : Graph) (gamma_list beta_list : list R)
    (k : nat) :
  (∃ nw i, _nodes_weight self = Some nw ∧ i ∈ nodes g ∧ nw !! i = None) ∨
  (∃ ew a b, _edges_weight self = Some ew ∧ (a, b) ∈ edges g ∧
             defaultdict_get (node_to_qubit (nodes g)) a ≠
             defaultdict_get (node_to_qubit (nodes g)) b ∧
             ew !! (a, b) = None) →
  is_Raise (layer self g gamma_list beta_list k).
Proof.
  intros Hmiss. unfold layer.
  destruct Hmiss as [(nw & i & Hnw & Hi & Hnone)|(ew & a & b & Hew & Hab & Hne & Hnone)].
  - destruct (mapM_result_Raise
      (λ i, w ← subscript (_nodes_weight self) i;
            q ← index (cirq.LineQubit_range (length (nodes g)))
                      (defaultdict_get (node_to_qubit (nodes g)) i);
            Ok (cirq.Op (cirq.rz (cirq.ndarray (np_rmul (np_lmul 2 gamma_list) w)) q)))
      (nodes g) i Hi) as [e He].
    { rewrite Hnw. simpl. rewrite Hnone. by eexists. }
    unfold cost_phase. rewrite He. by eexists.
  - destruct (cost_phase self g gamma_list) as [c|e]; [|by eexists]. simpl.
    destruct (mapM_result_Raise (coupling_edge self g gamma_list) (edges g) (a, b) Hab)
      as [e He].
    { unfold coupling_edge. simpl. rewrite decide_False by done.
      rewrite !index_node_qubit by (by eapply nodes_ne_of_qubits_ne). simpl.
      rewrite Hew. simpl. rewrite Hnone. by eexists. }
    unfold coupling. rewrite He. by eexists.
Qed.

(** At depth 1 or more, a node of the subgraph without an entry in
    [nodes_weight], or an edge of the subgraph between different local
    qubits without an entry in [edges_weight] under the orientation the
    graph lists it, makes every term on that subgraph raise [KeyError],
    whatever the element is. *)
Theorem subgraph_weight_missing (array_rads : list R → result R)
    (self : CircuitByCirq) (e : element) (g : Graph) :
  attached self →
  (∃ p, _p self = Some (S p)) →
  (∃ nw i, _nodes_weight self = Some nw ∧ i ∈ nodes g ∧ nw !! i = None) ∨
  (∃ ew a b, _edges_weight self = Some ew ∧ (a, b) ∈ edges g ∧
             defaultdict_get (node_to_qubit (nodes g)) a ≠
             defaultdict_get (node_to_qubit (nodes g)) b ∧
             ew !! (a, b) = None) →
  build_circuit self g = Raise KeyError ∧
  get_expectation array_rads self (e, g) = Raise KeyError.
Proof.
  intros Hatt [p Hp] Hmiss.
  assert (build_circuit self g = Raise KeyError) as Hc.
  { destruct (build_circuit_only_KeyError self g Hatt) as [[circ Hcirc]|Hc]; [|done].
    exfalso. destruct Hatt as (_ & [pargs Hpargs] & _).
    unfold build_circuit in Hcirc. rewrite Hp, Hpargs in Hcirc. simpl in Hcirc.
    destruct (layer_missing_weight self g (take (S p) pargs) (drop (S p) pargs) 0 Hmiss)
      as [err Herr].
    rewrite Herr in Hcirc. discriminate. }
  split; [exact Hc|]. unfold get_expectation. by rewrite Hc.
Qed.

Lemma subgraph_weight_missing_witness :
  attached engine_depth_1 ∧
  ((1%Z, 0%Z) ∈ edges graph_2_reversed) ∧
  unit_edges_weight !! (1%Z, 0%Z) = None ∧
  unit_edges_weight !! (0%Z, 1%Z) = Some 1%R ∧
  get_expectation broadcast_rads engine_depth_1 (Node 0, graph_2_reversed) = Raise KeyError.
Proof.
  assert (attached engine_depth_1) as Hatt by (repeat split; by eexists).
  assert ((1%Z, 0%Z) ∈ edges graph_2_reversed) as Hin by (by left).
  split; [exact Hatt|]. split; [exact Hin|]. split; [reflexivity|]. split; [reflexivity|].
  apply (subgraph_weight_missing broadcast_rads engine_depth_1 (Node 0) graph_2_reversed Hatt).
  - by exists 0.
  - right. exists unit_edges_weight, 1%Z, 0%Z.
    split; [reflexivity|]. split; [exact Hin|]. split; [discriminate|reflexivity].
Defined.

(** ** Further properties: the value and the failures of a term *)

Section term_properties.
Variable array_rads : list R → result R.

Local Abbreviation term := (get_expectation array_rads).

Lemma build_circuit_no_nodes (self : CircuitByCirq) (g : Graph) (p : nat) (pargs : list R) :
  nodes g = [] → _p self = Some p → _pargs self = Some pargs →
  build_circuit self g = Ok [].
Proof.
  intros Hnil Hp Hpargs. unfold build_circuit. rewrite Hp, Hpargs, Hnil. simpl.
  rewrite (mapM_result_Ok _ (λ _, [])).
  - simpl. f_equal. induction (seq 0 p) as [|k l IH]; [reflexivity|exact IH].
  - intros k _. unfold layer, cost_phase, coupling, mixer. rewrite Hnil. simpl.
    rewrite (mapM_result_Ok _ (λ _, []));
      [|intros [a b] _; unfold coupling_edge; rewrite Hnil; reflexivity].
    simpl. do 2 f_equal. induction (edges g) as [|x l IH]; [reflexivity|exact IH].
Qed.

(** On a subgraph without nodes, with depth and parameters attached, a term
    whose element has a weight raises [IndexError], at every depth: the
    circuit is empty and there is no qubit to put the observable on. *)
Theorem term_on_empty_subgraph (self : CircuitByCirq) (e : element) (g : Graph)
    (p : nat) (pargs : list R) (weight : R) :
  nodes g = [] → _p self = Some p → _pargs self = Some pargs →
  element_weight self e = Ok weight →
  term self (e, g) = Raise IndexError.
Proof.
  intros Hnil Hp Hpargs Hw. unfold get_expectation.
  rewrite (build_circuit_no_nodes self g p pargs Hnil Hp Hpargs). simpl.
  by rewrite (observable_no_nodes self e g weight Hnil Hw).
Qed.

Lemma term_TypeError (self : CircuitByCirq) (item : element * Graph) :
  _pargs self = None ∨ _p self = None →
  build_circuit self item.2 = Raise TypeError ∧ term self item = Raise TypeError.
Proof.
  intros Hnone. destruct item as [e g].
  assert (build_circuit self g = Raise TypeError) as Hc.
  { unfold build_circuit. destruct Hnone as [Hn|Hn]; rewrite Hn; simpl; [reflexivity|].
    by destruct (_pargs self). }
  split; [exact Hc|]. unfold get_expectation. by rewrite Hc.
Qed.

(** Evaluating a term before the parameter vector or the depth is attached
    raises [TypeError], whatever the term is. *)
Theorem term_unattached (self : CircuitByCirq) (item : element * Graph) :
  _pargs self = None ∨ _p self = None →
  build_circuit self item.2 = Raise TypeError ∧ term self item = Raise TypeError.
Proof. apply term_TypeError. Qed.

Lemma observable_Ok (self : CircuitByCirq) (e : element) (g : Graph)
    (weight : R) (op : list nat) :
  observable self e g = Ok (weight, op) →
  element_weight self e = Ok weight ∧ nodes g ≠ [] ∧
  Forall (λ q, q < length (nodes g)) op.
Proof.
  unfold observable. intros Hobs.
  assert (nodes g = [] → False) as Hne.
  { intros Hnil. rewrite Hnil in Hobs. simpl in Hobs.
    destruct e; simpl in Hobs; destruct (subscript _ _); discriminate. }
  pose proof (defaultdict_get_lt (nodes g)) as Hlt.
  destruct e as [x|a b]; simpl.
  - destruct (subscript _ x) as [w|]; simpl in Hobs; [|discriminate].
    rewrite index_node_qubit in Hobs by done. injection Hobs as -> <-.
    repeat split; [done|]. apply Forall_singleton. auto.
  - destruct (subscript _ (a, b)) as [w|]; simpl in Hobs; [|discriminate].
    rewrite !index_node_qubit in Hobs by done. injection Hobs as -> <-.
    repeat split; [done|]. unfold cirq.mul, cirq.Z.
    apply Forall_app. split; apply Forall_forall;
      intros q [_ Hq%list_elem_of_singleton]%list_elem_of_filter; subst; auto.
Qed.

(** Once the circuit of a term is built, its observable formed and the
    circuit simulated, the term returns a number: the observable only names
    qubits of the register, all of which are in [qubit_map], so the
    expectation cannot fail. *)
Theorem term_returns (self : CircuitByCirq) (e : element) (g : Graph)
    (circ : list cirq.entry) (weight : R) (op : list nat) (ψ : cirq.ket) :
  build_circuit self g = Ok circ →
  observable self e g = Ok (weight, op) →
  cirq.final_state array_rads circ = Ok ψ →
  Forall (λ q, q < length (nodes g)) op ∧
  term self (e, g) =
    Ok (weight * real (cirq.inner (length (nodes g)) ψ (element_operator e g ψ)))%R.
Proof.
  intros Hc Hobs Hψ. destruct (observable_Ok _ _ _ _ _ Hobs) as (Hw & Hne & Hop).
  split; [exact Hop|]. by apply (term_inner array_rads self e g circ).
Qed.

End term_properties.

Lemma term_on_empty_subgraph_witness :
  nodes graph_empty = [] ∧
  element_weight (engine_with 3 [1%R] false []) (Edge 0 1) = Ok 1%R ∧
  get_expectation broadcast_rads (engine_with 3 [1%R] false []) (Edge 0 1, graph_empty) =
    Raise IndexError.
Proof.
  split; [reflexivity|]. split; [reflexivity|].
  apply (term_on_empty_subgraph broadcast_rads (engine_with 3 [1%R] false [])
           (Edge 0 1) graph_empty 3 [1%R] 1%R); reflexivity.
Defined.

Lemma term_unattached_witness :
  _pargs engine_fresh = None ∧
  get_expectation broadcast_rads engine_fresh (Node 0, graph_2) = Raise TypeError.
Proof.
  split; [reflexivity|].
  destruct (term_unattached broadcast_rads engine_fresh (Node 0, graph_2)) as [_ Ht].
  - by left.
  - exact Ht.
Defined.

Lemma term_returns_witness :
  build_circuit engine_depth_1 graph_2 = Ok circuit_depth_1 ∧
  observable engine_depth_1 (Node 1) graph_2 = Ok (1%R, [1]) ∧
  cirq.final_state broadcast_rads circuit_depth_1 = Ok state_depth_1 ∧
  get_expectation broadcast_rads engine_depth_1 (Node 1, graph_2) =
    Ok (1 * real (cirq.inner 2 state_depth_1 (cirq.apply_Z 1 state_depth_1)))%R.
Proof.
  do 3 (split; [reflexivity|]).
  destruct (term_returns broadcast_rads engine_depth_1 (Node 1) graph_2 circuit_depth_1
              1%R [1] state_depth_1 eq_refl eq_refl eq_refl) as [_ Ht].
  exact Ht.
Defined.

(** ** Further properties: the strategies *)

Lemma sum_foldl (a : R) (l : list R) : foldl Rplus a l = (a + sum l)%R.
Proof.
  unfold sum. revert a. induction l as [|x l IH]; intros a; simpl.
  - ring.
  - rewrite (IH (a + x)%R), (IH (0 + x)%R). ring.
Qed.

Lemma sum_cons (x : R) (l : list R) : sum (x :: l) = (x + sum l)%R.
Proof. unfold sum at 1. simpl. rewrite sum_foldl. ring. Qed.

Lemma sum_app (l1 l2 : list R) : sum (l1 ++ l2) = (sum l1 + sum l2)%R.
Proof.
  induction l1 as [|x l1 IH]; simpl.
  - unfold sum at 2. simpl. ring.
  - rewrite !sum_cons, IH. ring.
Qed.

Lemma thread_counts_lookup (cpu_num : nat) (environ : gmap string nat) (k : string) :
  set_thread_counts cpu_num environ !! k =
  if decide (k ∈ thread_count_variables) then Some cpu_num else environ !! k.
Proof.
  unfold set_thread_counts, thread_count_variables.
  destruct (decide (k ∈ _)) as [Hin|Hnot].
  - repeat (apply elem_of_cons in Hin as [->|Hin];
            [by repeat (rewrite lookup_insert_eq || rewrite lookup_insert_ne by done)|]).
    by apply not_elem_of_nil in Hin.
  - rewrite !lookup_insert_ne; [done|..]; intros <-; apply Hnot;
      repeat ((by left) || right).
Qed.

Section strategy_properties.
Variable array_rads : list R → result R.
Variable cpu_count : nat.

Local Abbreviation term := (get_expectation array_rads).
Local Abbreviation terms := (sum_of_terms array_rads).
Local Abbreviation serial := (expectation_calculation_serial array_rads cpu_count).
Local Abbreviation parallel := (expectation_calculation_parallel array_rads).
Local Abbreviation calculation := (expectation_calculation array_rads cpu_count).

Lemma serial_environ (w : world) :
  os_environ (serial w).2 = set_thread_counts cpu_count (os_environ w).
Proof. unfold expectation_calculation_serial. destruct (_ ← items _; _); reflexivity. Qed.

Lemma parallel_environ (w : world) :
  os_environ (parallel w).2 = set_thread_counts 1 (os_environ w).
Proof. unfold expectation_calculation_parallel. destruct (_ ← items _; _); reflexivity. Qed.

(** After the serial strategy the five thread-count variables hold the
    number of cores, after the parallel strategy they hold 1, whether the
    call returned or raised; every other environment variable is as it
    was. *)
Theorem thread_counts_after_call (w : world) (k : string) :
  os_environ (serial w).2 !! k =
    (if decide (k ∈ thread_count_variables) then Some cpu_count else os_environ w !! k) ∧
  os_environ (parallel w).2 !! k =
    (if decide (k ∈ thread_count_variables) then Some 1 else os_environ w !! k) ∧
  os_environ (calculation w).2 !! k =
    (if decide (k ∈ thread_count_variables)
     then Some (if _is_parallel (obj w) then 1 else cpu_count)
     else os_environ w !! k).
Proof.
  split; [|split].
  - by rewrite serial_environ, thread_counts_lookup.
  - by rewrite parallel_environ, thread_counts_lookup.
  - unfold expectation_calculation. destruct (_is_parallel (obj w)).
    + by rewrite parallel_environ, thread_counts_lookup.
    + by rewrite serial_environ, thread_counts_lookup.
Qed.

(** A computation on an object to which no mapping has been attached raises
    [AttributeError] under either strategy and leaves the object as it
    was. *)
Theorem calculation_without_mapping (w : world) :
  _element_to_graph (obj w) = None →
  ((serial w).1 = Raise AttributeError ∧ obj (serial w).2 = obj w) ∧
  ((parallel w).1 = Raise AttributeError ∧ obj (parallel w).2 = obj w) ∧
  ((calculation w).1 = Raise AttributeError ∧ obj (calculation w).2 = obj w).
Proof.
  intros Hnone.
  assert (terms (obj w) = Raise AttributeError) as Ht.
  { unfold sum_of_terms. by rewrite Hnone. }
  rewrite serial_obj, parallel_obj, calculation_obj.
  rewrite serial_result, parallel_result, calculation_result, Ht.
  by repeat split.
Qed.

(** With a mapping that has at least one item but no parameter vector or no
    depth attached, a computation raises [TypeError] under either
    strategy. *)
Theorem calculation_unattached (w : world) (item : element * Graph)
    (its : list (element * Graph)) :
  _element_to_graph (obj w) = Some (item :: its) →
  _pargs (obj w) = None ∨ _p (obj w) = None →
  (serial w).1 = Raise TypeError ∧
  (parallel w).1 = Raise TypeError ∧
  (calculation w).1 = Raise TypeError.
Proof.
  intros Hits Hnone.
  assert (terms (obj w) = Raise TypeError) as Ht.
  { unfold sum_of_terms. rewrite Hits. simpl.
    destruct (term_TypeError array_rads (obj w) item Hnone) as [_ ->]. reflexivity. }
  by rewrite serial_result, parallel_result, calculation_result, Ht.
Qed.

(** The serial strategy raises the exception of the first item, in the
    order of the mapping, whose evaluation fails; the history is
    unchanged. *)
Theorem serial_raises_first_failure (w : world) (its1 its2 : list (element * Graph))
    (item : element * Graph) (e : exn) :
  _element_to_graph (obj w) = Some (its1 ++ item :: its2) →
  Forall (λ it, is_Ok (term (obj w) it)) its1 →
  term (obj w) item = Raise e →
  (serial w).1 = Raise e ∧ obj (serial w).2 = obj w.
Proof.
  intros Hits Hok Hitem.
  assert (terms (obj w) = Raise e) as Ht.
  { unfold sum_of_terms. rewrite Hits. simpl. rewrite mapM_result_app.
    assert (is_Ok (mapM (term (obj w)) its1)) as [rs ->].
    { destruct (mapM_result_only (term (obj w)) its1 KeyError) as [Hrs|Hrs]; [|done|].
      - rewrite Forall_forall in Hok. intros x Hx. left. by apply Hok.
      - exfalso. clear Hits. induction Hok as [|x l [y Hy] Hl IH]; simpl in Hrs.
        + discriminate.
        + rewrite Hy in Hrs. simpl in Hrs.
          destruct (mapM (term (obj w)) l); [discriminate|]. by apply IH. }
    simpl. by rewrite Hitem. }
  by rewrite serial_obj, serial_result, Ht.
Qed.

Lemma terms_with_mapping (self : CircuitByCirq) (its : list (element * Graph)) :
  terms (with_element_to_graph self its) =
  (rs ← mapM (term self) its; Ok (sum rs)).
Proof. reflexivity. Qed.

(** The empty mapping gives the total 0.  With floats read as real numbers,
    the total is additive over the mapping: the mapping made of two mappings
    one after the other gives the sum of their totals, or no total if either
    gives none.  (The program adds floats from left to right, so there the
    two sides agree up to rounding.) *)
Theorem total_additive (w : world) (its1 its2 : list (element * Graph)) :
  (calculation (with_mapping w [])).1 = Ok 0%R ∧
  total (calculation (with_mapping w (its1 ++ its2))).1 =
  add_totals (calculation (with_mapping w its1)).1 (calculation (with_mapping w its2)).1.
Proof.
  rewrite !calculation_result. simpl. rewrite !terms_with_mapping.
  split; [reflexivity|]. rewrite mapM_result_app.
  destruct (mapM (term (obj w)) its1) as [r1|]; simpl; [|reflexivity].
  destruct (mapM (term (obj w)) its2) as [r2|]; simpl; [|reflexivity].
  by rewrite sum_app.
Qed.

Lemma mapM_total_perm (f : element * Graph → result R) (l l' : list (element * Graph)) :
  l ≡ₚ l' →
  total (rs ← mapM f l; Ok (sum rs)) = total (rs ← mapM f l'; Ok (sum rs)).
Proof.
  induction 1 as [|x l l' Hp IH|x y l|l l' l'' _ IH1 _ IH2].
  - reflexivity.
  - simpl. destruct (f x) as [a|]; simpl; [|reflexivity].
    destruct (mapM f l) as [r|], (mapM f l') as [r'|]; simpl in *;
      try discriminate; [|reflexivity].
    injection IH as IH. by rewrite !sum_cons, IH.
  - simpl. destruct (f x) as [a|], (f y) as [b|]; simpl; try reflexivity.
    destruct (mapM f l) as [r|]; simpl; [|reflexivity].
    rewrite !sum_cons. f_equal. ring.
  - by rewrite IH1.
Qed.

(** Over the reals, the outcome does not depend on the order of the items
    of the mapping: two mappings with the same items in another order give
    the same total, or both give none. *)
Theorem total_order_independent (w : world) (its its' : list (element * Graph)) :
  its ≡ₚ its' →
  total (calculation (with_mapping w its)).1 = total (calculation (with_mapping w its')).1 ∧
  total (serial (with_mapping w its)).1 = total (parallel (with_mapping w its')).1.
Proof.
  intros Hp. rewrite !calculation_result, serial_result, parallel_result. simpl.
  rewrite !terms_with_mapping. split; by apply mapM_total_perm.
Qed.

(** After [k] calls in a row on unchanged inputs, the history is the old one
    followed by [k] copies of the total, or the old one if the call raises;
    the next call has the same outcome as the first. *)
Theorem history_after_repeated_calls (w : world) (k : nat) :
  _expectation_path (obj (repeat_calls calculation k w)) =
    _expectation_path (obj w) ++
    match (calculation w).1 with Ok res => replicate k res | Raise _ => [] end ∧
  (calculation (repeat_calls calculation k w)).1 = (calculation w).1.
Proof.
  revert w. induction k as [|k IH]; intros w; simpl.
  - split; [|reflexivity]. destruct (calculation w).1; by rewrite app_nil_r.
  - destruct (IH (calculation w).2) as [Hpath Hres].
    assert ((calculation (calculation w).2).1 = (calculation w).1) as Hsame.
    { by rewrite !calculation_result, calculation_obj, calculation_result, terms_after. }
    rewrite Hpath, Hres, Hsame. split; [|reflexivity].
    rewrite calculation_obj, after_path.
    destruct (calculation w).1; simpl; [by rewrite <- app_assoc | by rewrite !app_nil_r].
Qed.

(** What [visualization] plots after a call is what it plotted before,
    followed, if the call returned a total, by that total at the abscissa
    one past the old length. *)
Theorem visualization_after_call (w : world) :
  (visualization (calculation w).2).1 =
  (visualization w).1 ++
  match (calculation w).1 with
  | Ok res => [(S (length (_expectation_path (obj w))), res)]
  | Raise _ => []
  end.
Proof.
  unfold visualization. simpl. rewrite calculation_obj.
  destruct (calculation w).1 as [res|]; simpl; [|by rewrite app_nil_r].
  rewrite length_app. simpl. rewrite Nat.add_1_r, seq_S.
  rewrite zip_with_app by (by rewrite length_seq). reflexivity.
Qed.

End strategy_properties.

Lemma calculation_without_mapping_witness :
  _element_to_graph engine_fresh = None ∧
  (expectation_calculation broadcast_rads 4 (world_of engine_fresh)).1 = Raise AttributeError.
Proof.
  split; [reflexivity|].
  destruct (calculation_without_mapping broadcast_rads 4 (world_of engine_fresh) eq_refl)
    as (_ & _ & Hcalc & _).
  exact Hcalc.
Defined.

Lemma calculation_unattached_witness :
  _pargs (with_element_to_graph engine_fresh [(Node 0, graph_2)]) = None ∧
  (expectation_calculation broadcast_rads 4
     (world_of (with_element_to_graph engine_fresh [(Node 0, graph_2)]))).1 = Raise TypeError.
Proof.
  split; [reflexivity|].
  destruct (calculation_unattached broadcast_rads 4
              (world_of (with_element_to_graph engine_fresh [(Node 0, graph_2)]))
              (Node 0, graph_2) [] eq_refl) as (_ & _ & Hcalc).
  - by left.
  - exact Hcalc.
Defined.

Lemma serial_raises_first_failure_witness :
  Forall (λ it, is_Ok (get_expectation broadcast_rads engine_missing_weight it))
    [(Node 0, graph_2)] ∧
  get_expectation broadcast_rads engine_missing_weight (Node 7, graph_2) = Raise KeyError ∧
  (expectation_calculation_serial broadcast_rads 4 (world_of engine_missing_weight)).1 =
    Raise KeyError.
Proof.
  assert (Forall (λ it, is_Ok (get_expectation broadcast_rads engine_missing_weight it))
            [(Node 0, graph_2)]) as Hok.
  { constructor; [|constructor]. eexists.
    apply (term_inner broadcast_rads engine_missing_weight (Node 0) graph_2
             circuit_depth_1 state_depth_1 1%R); reflexivity || discriminate. }
  split; [exact Hok|]. split; [reflexivity|].
  destruct (serial_raises_first_failure broadcast_rads 4 (world_of engine_missing_weight)
              [(Node 0, graph_2)] [] (Node 7, graph_2) KeyError eq_refl Hok eq_refl)
    as [Hres _].
  exact Hres.
Defined.

Lemma total_order_independent_witness :
  [(Node 0, graph_2); (Edge 0 1, graph_2)] ≡ₚ [(Edge 0 1, graph_2); (Node 0, graph_2)] ∧
  total (expectation_calculation broadcast_rads 4
           (with_mapping (world_of engine_depth_1) [(Node 0, graph_2); (Edge 0 1, graph_2)])).1 =
  total (expectation_calculation broadcast_rads 4
           (with_mapping (world_of engine_depth_1) [(Edge 0 1, graph_2); (Node 0, graph_2)])).1.
Proof.
  assert ([(Node 0, graph_2); (Edge 0 1, graph_2)] ≡ₚ
          [(Edge 0 1, graph_2); (Node 0, graph_2)]) as Hp by apply Permutation_swap.
  split; [exact Hp|].
  destruct (total_order_independent broadcast_rads 4 (world_of engine_depth_1) _ _ Hp)
    as [Hcalc _].
  exact Hcalc.
Defined.

(** ** Further properties: the norm of the simulated state *)
















Section norm_properties.
Variable array_rads : list R → result R.


(** An edge term on one qubit: the observable is the empty Pauli string
    and the value the weight times the squared norm of the state. *)
Lemma edge_term_identity (self : CircuitByCirq) (a b : Z) (g : Graph)
    (circ : list cirq.entry) (ψ : cirq.ket) (weight : R) :
  build_circuit self g = Ok circ →
  cirq.final_state array_rads circ = Ok ψ →
  subscript (_edges_weight self) (a, b) = Ok weight →
  nodes g ≠ [] →
  defaultdict_get (node_to_qubit (nodes g)) a = defaultdict_get (node_to_qubit (nodes g)) b →
  observable self (Edge a b) g = Ok (weight, []) ∧
  get_expectation array_rads self (Edge a b, g) =
    Ok (weight * real (cirq.inner (length (nodes g)) ψ ψ))%R.
Proof.
  intros Hc Hψ Hw Hne Hab. split.
  - unfold observable. rewrite Hw. simpl. rewrite !index_node_qubit by done. simpl.
    by rewrite Hab, mul_Z_eq.
  - rewrite (term_inner array_rads self (Edge a b) g circ ψ weight Hc Hψ Hw Hne).
    simpl. rewrite Hab.
    by rewrite (inner_ext _ _ _ ψ) by (intros x; apply apply_Z_twice).
Qed.

(** An edge term whose two endpoints have the same local qubit (a self-loop
    element, or an endpoint that is not in the subgraph and reads as qubit 0
    like the other one) has the identity as observable, the two [Z]
    cancelling: once its circuit is built and simulated, it returns its
    weight times the squared norm [⟨ψ|ψ⟩] of the simulated state, not an
    expectation of [Z⊗Z]. *)
Theorem edge_term_on_one_qubit (self : CircuitByCirq) (a b : Z) (g : Graph)
    (circ : list cirq.entry) (ψ : cirq.ket) (weight : R) :
  build_circuit self g = Ok circ →
  cirq.final_state array_rads circ = Ok ψ →
  subscript (_edges_weight self) (a, b) = Ok weight →
  nodes g ≠ [] →
  defaultdict_get (node_to_qubit (nodes g)) a = defaultdict_get (node_to_qubit (nodes g)) b →
  observable self (Edge a b) g = Ok (weight, []) ∧
  get_expectation array_rads self (Edge a b, g) =
    Ok (weight * real (cirq.inner (length (nodes g)) ψ ψ))%R.
Proof. apply edge_term_identity. Qed.


End norm_properties.

Lemma edge_term_on_one_qubit_witness :
  build_circuit engine_loop_element graph_2 = Ok circuit_depth_1 ∧
  cirq.final_state broadcast_rads circuit_depth_1 = Ok state_depth_1 ∧
  subscript (_edges_weight engine_loop_element) (1%Z, 1%Z) = Ok 3%R ∧
  observable engine_loop_element (Edge 1 1) graph_2 = Ok (3%R, []) ∧
  get_expectation broadcast_rads engine_loop_element (Edge 1 1, graph_2) =
    Ok (3 * real (cirq.inner 2 state_depth_1 state_depth_1))%R.
Proof.
  do 3 (split; [reflexivity|]).
  apply (edge_term_on_one_qubit broadcast_rads engine_loop_element 1%Z 1%Z graph_2
           circuit_depth_1 state_depth_1 3%R eq_refl eq_refl eq_refl).
  - discriminate.
  - reflexivity.
Defined.


(** ** Further properties: [get_operator] *)

Lemma filter_not_in (x : nat) (acc : list nat) :
  x ∉ acc → filter (λ q, q ∉ [x]) acc = acc.
Proof.
  induction acc as [|y acc IH]; intros Hx; [reflexivity|].
  apply not_elem_of_cons in Hx as [Hne Hx].
  rewrite filter_cons_True.
  - by rewrite IH.
  - intros Hy%list_elem_of_singleton. congruence.
Qed.

Lemma mul_Z_fresh (x : nat) (acc : list nat) :
  x ∉ acc → cirq.mul acc (cirq.Z x) = acc ++ [x].
Proof.
  intros Hx. unfold cirq.mul, cirq.Z.
  by rewrite filter_not_in, filter_cons_True, filter_nil.
Qed.

Lemma get_operator_fold (P : nat → Prop) `{!∀ i, Decision (P i)} (l acc : list nat) :
  NoDup l → (∀ i, i ∈ l → i ∉ acc) →
  foldl (λ op i, if decide (P i) then cirq.mul op (cirq.Z i) else op) acc l =
  acc ++ filter P l.
Proof.
  revert acc. induction l as [|x l IH]; intros acc Hnd Hacc; simpl.
  - by rewrite app_nil_r.
  - apply NoDup_cons in Hnd as [Hx Hnd].
    destruct (decide (P x)) as [HP|HP].
    + rewrite mul_Z_fresh by (apply Hacc; by left).
      rewrite IH.
      * rewrite filter_cons_True by done. by rewrite <- app_assoc.
      * done.
      * intros i Hi [Hin|Hin%list_elem_of_singleton]%elem_of_app.
        -- apply (Hacc i); [by right|done].
        -- subst. done.
    + rewrite IH.
      * by rewrite filter_cons_False.
      * done.
      * intros i Hi. apply Hacc. by right.
Qed.

(** [get_operator] returns the product of one [Z] for each position of
    [range(qubit_num)] that equals a node identifier of the element, in
    increasing order: it reads the node identifiers as qubit positions, not
    through a local index map, and uses no attribute of the object.  A
    self-loop edge gives the operator of its node, and the order of the
    endpoints of an edge does not matter. *)
Theorem get_operator_positions (self : CircuitByCirq) (e : element) (a b : Z)
    (qubit_num : nat) :
  get_operator self e qubit_num =
    filter (λ i, Z.of_nat i ∈ element_nodes e) (seq 0 qubit_num) ∧
  get_operator self (Edge a a) qubit_num = get_operator self (Node a) qubit_num ∧
  get_operator self (Edge a b) qubit_num = get_operator self (Edge b a) qubit_num.
Proof.
  assert (∀ e', get_operator self e' qubit_num =
                filter (λ i, Z.of_nat i ∈ element_nodes e') (seq 0 qubit_num)) as Hget.
  { intros e'. unfold get_operator, cirq.LineQubit_range.
    rewrite (get_operator_fold (λ i, Z.of_nat i ∈ element_nodes e')).
    - reflexivity.
    - apply NoDup_seq.
    - intros i _. apply not_elem_of_nil. }
  split; [apply Hget|]. rewrite !Hget. split; apply list_filter_iff; intros i; simpl.
  - rewrite !elem_of_cons. tauto.
  - rewrite !elem_of_cons. tauto.
Qed.
